(** * cadl-data-store: the TypeScript store emitter (src/index.ts)

    A shallow embedding of the emitter created by [createTsEmitter]: the
    memoized traversal [getTypeReference] / [generateModelType] /
    [generateArrayType], the name synthesis [getModelDeclarationName], the
    intrinsic table [instrinsicNameToTSType] and the builder
    [emitStoreInterface] / [emit], followed by the properties of the
    specification that were checked against them.

    Conventions of the embedding.
    - A Cadl [Type] is a JavaScript object compared by reference.  The host's
      object graph is a heap [typeAt : TypeId -> CadlType]: a [TypeId] is the
      identity (address) of a node, and the fields of a node that hold other
      types hold their identities.  Cycles and sharing are therefore
      expressible, and [knownTypes] is keyed by identity.
    - The closure variables [typeDecls] and [knownTypes] of [createTsEmitter]
      are the fields of [EmitterState]; the calls made to [mkdir] and
      [writeFile] are recorded in the same state, in call order.
    - The traversal is recursive over a graph that may be cyclic, so the
      recursive functions take a bound [fuel] on the depth of the call stack.
      Running out of it ([Diverged], [OutOfFuel]) stands for a recursion that
      does not return; the JavaScript engine ends such a recursion with a
      [RangeError] for the exhausted stack, which is not one of the
      exceptions the emitter throws itself ([Thrown], [Throw]). *)

From stdpp Require Import gmap strings list.

(** ** Data model *)

Definition TypeId := nat.

(** [ModelTypeProperty]: the fields read by the emitter. *)
Record ModelTypeProperty := {
  prop_name : string;
  prop_optional : bool;
  prop_type : TypeId
}.

(** [ModelType]: [properties] is the JavaScript Map's values in insertion
    order; [templateArguments] may be [undefined]. *)
Record ModelType := {
  name : string;
  properties : list ModelTypeProperty;
  templateArguments : option (list TypeId)
}.

Record ArrayType := { elementType : TypeId }.

(** The kinds that [getTypeReference] has no case for. *)
Inductive OtherKind :=
| KString | KBoolean | KTuple | KEnum | KInterface | KOperation
| KNamespace | KTemplateParameter | KIntrinsic.

(** A node of the type graph.  For a [Number] literal the node carries the
    text that [type.value.toString()] yields. *)
Inductive CadlType :=
| TModel (m : ModelType)
| TArray (a : ArrayType)
| TUnion (options : list TypeId)
| TNumber (value_toString : string)
| TOther (k : OtherKind).

(** The values stored in [program.stateMap(storeKey)] (typed [any]). *)
Inductive JsValue :=
| JsUndefined
| JsNull
| JsBool (b : bool)
| JsString (s : string).

(** What the emitter reads of the host [Program]: the object graph, the
    result of [getIntrinsicModelName(p, type)] for each type, the entries
    of [p.stateMap(storeKey)] in insertion order, and, for a node that is
    not a Model, its [name] property when it has one (an enum, an
    interface, a named union; [undefined] otherwise). *)
Record Program := {
  typeAt : TypeId -> CadlType;
  getIntrinsicModelName : TypeId -> option string;
  storeStateMap : list (TypeId * JsValue);
  nonModelName : TypeId -> option string
}.

Record DataStoreEmitterOptions := { outputDir : string }.

(** ** Strings *)

Definition dquote : string := String (Ascii.ascii_of_nat 34) EmptyString.
Definition newline : string := String (Ascii.ascii_of_nat 10) EmptyString.

(** [Array.prototype.join] on an array of strings. *)
Definition join (sep : string) (xs : list string) : string := String.concat sep xs.

(** ** Outcomes *)

(** Result of a pure, possibly throwing, possibly non-returning call. *)
Inductive Outcome (A : Type) :=
| Ok (a : A)
| Throw (msg : string)
| OutOfFuel.
Arguments Ok {A} a.
Arguments Throw {A} msg.
Arguments OutOfFuel {A}.

Definition obind {A B} (c : Outcome A) (k : A -> Outcome B) : Outcome B :=
  match c with
  | Ok a => k a
  | Throw msg => Throw msg
  | OutOfFuel => OutOfFuel
  end.

(** [Array.prototype.map] with a callback that may throw: elements are
    visited left to right and the first exception propagates. *)
Fixpoint omap {A B} (f : A -> Outcome B) (xs : list A) : Outcome (list B) :=
  match xs with
  | [] => Ok []
  | x :: xs' => obind (f x) (fun y => obind (omap f xs') (fun ys => Ok (y :: ys)))
  end.

(** The emitter's mutable state. *)
Record EmitterState := {
  typeDecls : list string;
  knownTypes : gmap TypeId string;
  madeDirs : list string;
  writtenFiles : list (string * string)
}.

(** Result of a call that reads and writes the emitter state: it returns a
    value, throws (the mutations made so far stay), or does not return. *)
Inductive Run (A : Type) :=
| Returned (a : A) (st : EmitterState)
| Thrown (msg : string) (st : EmitterState)
| Diverged.
Arguments Returned {A} a st.
Arguments Thrown {A} msg st.
Arguments Diverged {A}.

Definition Emit (A : Type) := EmitterState -> Run A.

Definition ret {A} (a : A) : Emit A := fun st => Returned a st.

Definition bind {A B} (c : Emit A) (k : A -> Emit B) : Emit B :=
  fun st =>
    match c st with
    | Returned a st' => k a st'
    | Thrown msg st' => Thrown msg st'
    | Diverged => Diverged
    end.

(** [throw new Error(msg)]. *)
Definition throw {A} (msg : string) : Emit A := fun st => Thrown msg st.

Notation "'let!' x ':=' c 'in' k" := (bind c (fun x => k))
  (at level 10, x pattern, c at level 100, k at level 200).

(** Lifting of a pure call into a stateful one. *)
Definition liftO {A} (o : Outcome A) : Emit A :=
  fun st =>
    match o with
    | Ok a => Returned a st
    | Throw msg => Thrown msg st
    | OutOfFuel => Diverged
    end.

(** Left-to-right iteration with a stateful callback ([for ... of] pushing
    onto an array, or [map] with a callback that has effects). *)
Fixpoint mapM {A B} (f : A -> Emit B) (xs : list A) : Emit (list B) :=
  match xs with
  | [] => ret []
  | x :: xs' =>
    let! y := f x in
    let! ys := mapM f xs' in
    ret (y :: ys)
  end.

(** ** The intrinsic table *)

(** [new Map(entries)]: entries are set in order, a later one replacing an
    earlier one with the same key. *)
Definition newMap (entries : list (string * string)) : gmap string string :=
  foldl (fun m e => <[e.1 := e.2]> m) ∅ entries.

Definition instrinsicNameToTSType : gmap string string :=
  newMap [ ("string", "string");
           ("int32", "number");
           ("int16", "number");
           ("float16", "number");
           ("float32", "number");
           ("int64", "bigint");
           ("boolean", "boolean") ].

(** ** The emitter *)

Definition unknownIntrinsicMessage (intrinsicName : string) : string :=
  "Unknown intrinsic type " +:+ intrinsicName.

Definition templateNameMessage : string :=
  "Can't get a name for non-model type used to instantiate a model template".

(** The template literal of [generateModelType]. *)
Definition interfaceDecl (typeRef : string) (props : list string) : string :=
  "interface " +:+ typeRef +:+ " {" +:+ newline +:+
  "      " +:+ join "," props +:+ newline +:+
  "    }".

(** The template literal of [emitStoreInterface], line by line. *)
Definition storeTemplate (modelName : string) : string :=
  join newline [
    EmptyString;
    "    import { CosmosClient, Database, Container } from " +:+ dquote +:+ "@azure/cosmos" +:+ dquote +:+ ";";
    EmptyString;
    "    class " +:+ modelName +:+ "Store {";
    "      private client: CosmosClient;";
    "      private databaseId: string;";
    "      private containerId: string;";
    "      private container!: Container;";
    "      private database!: Database;";
    "      constructor(client: CosmosClient, databaseId: string, containerId: string) {";
    "        this.client = client;";
    "        this.databaseId = databaseId;";
    "        this.containerId = containerId;";
    "      }";
    "    ";
    "      async init() {";
    "        const { database } = await this.client.databases.createIfNotExists({";
    "          id: this.databaseId,";
    "        });";
    "        const { container } = await database.containers.createIfNotExists({";
    "          id: this.containerId,";
    "        });";
    "        this.database = database;";
    "        this.container = container;";
    "      }";
    "    ";
    "      async get(id: string): Promise<" +:+ modelName +:+ "> {";
    "        let { resource } = await this.container.item(id).read();";
    "        return resource;";
    "      }";
    "    }    ";
    "    " ].

Section Emitter.

(** [createTsEmitter(p, options)]; [path_join] is Node's [path.join]. *)
Variable p : Program.
Variable options : DataStoreEmitterOptions.
Variable path_join : string -> string -> string.

(** The state right after [createTsEmitter]: [typeDecls = []],
    [knownTypes = new Map()], nothing written yet. *)
Definition createTsEmitter : EmitterState :=
  {| typeDecls := []; knownTypes := ∅; madeDirs := []; writtenFiles := [] |}.

(** The arrow function that [getModelDeclarationName] maps over the
    template arguments, over the recursive call.  The [switch] on the
    argument's kind falls through from an [Array] whose element is not a
    Model to the throwing [default]. *)
Definition templateArgumentName (getModelDeclarationName : ModelType -> Outcome string)
    (t : TypeId) : Outcome string :=
  match typeAt p t with
  | TModel m => getModelDeclarationName m
  | TArray a =>
    match typeAt p (elementType a) with
    | TModel em => obind (getModelDeclarationName em) (fun n => Ok (n +:+ "Array"))
    | _ => Throw templateNameMessage
    end
  | _ => Throw templateNameMessage
  end.

(** [getModelDeclarationName(type)]. *)
Fixpoint getModelDeclarationName (fuel : nat) (type : ModelType) : Outcome string :=
  match fuel with
  | 0 => OutOfFuel
  | S fuel' =>
    match templateArguments type with
    | None => Ok (name type)
    | Some [] => Ok (name type)
    | Some args =>
      obind (omap (templateArgumentName (getModelDeclarationName fuel')) args)
            (fun parameterNames => Ok (name type +:+ join EmptyString parameterNames))
    end
  end.

(** JavaScript truthiness of [getIntrinsicModelName]'s result
    ([string | undefined]): the empty string is falsy. *)
Definition truthyName (r : option string) : option string :=
  match r with
  | Some EmptyString => None
  | Some s => Some s
  | None => None
  end.

(** One property's text inside the interface body. *)
Definition propText (prop : ModelTypeProperty) (ref : string) : string :=
  prop_name prop +:+ (if prop_optional prop then "?" else EmptyString) +:+ ": " +:+ ref.

(** [generateArrayType(type)], over the recursive call. *)
Definition generateArrayType (getTypeReference : TypeId -> Emit string)
    (type : ArrayType) : Emit string :=
  let! r := getTypeReference (elementType type) in
  ret (r +:+ "[]").

(** [generateModelType(type)], over the recursive call; [self] is the
    identity of [type], the key under which it is memoized. *)
Definition generateModelType (fuel : nat) (getTypeReference : TypeId -> Emit string)
    (self : TypeId) (type : ModelType) : Emit string :=
  match truthyName (getIntrinsicModelName p self) with
  | Some intrinsicName =>
    match instrinsicNameToTSType !! intrinsicName with
    | None => throw (unknownIntrinsicMessage intrinsicName)
    | Some ts => ret ts
    end
  | None =>
    let! props := mapM (fun prop =>
                          let! r := getTypeReference (prop_type prop) in
                          ret (propText prop r))
                       (properties type) in
    let! typeRef := liftO (getModelDeclarationName fuel type) in
    fun st =>
      Returned typeRef
        {| typeDecls := typeDecls st ++ [interfaceDecl typeRef props];
           knownTypes := <[self := typeRef]> (knownTypes st);
           madeDirs := madeDirs st;
           writtenFiles := writtenFiles st |}
  end.

(** The [switch (type.kind)] of [getTypeReference], over the recursive call. *)
Definition switchOnKind (fuel : nat) (getTypeReference : TypeId -> Emit string)
    (type : TypeId) : Emit string :=
  match typeAt p type with
  | TModel m => generateModelType fuel getTypeReference type m
  | TArray a => generateArrayType getTypeReference a
  | TNumber value => ret value
  | TUnion opts =>
    let! refs := mapM getTypeReference opts in
    ret (join "|" refs)
  | TOther _ => ret "{}"
  end.

(** [getTypeReference(type)]: the memo lookup, then the dispatch on kind. *)
Fixpoint getTypeReference (fuel : nat) (type : TypeId) : Emit string :=
  match fuel with
  | 0 => fun _ => Diverged
  | S fuel' =>
    fun st =>
      match knownTypes st !! type with
      | Some ref => Returned ref st
      | None => switchOnKind fuel' (getTypeReference fuel') type st
      end
  end.

(** [model.name] for a key of the state map.  The map is cast to
    [Map<ModelType, any>] but [$store] accepts any Type: a node that is
    not a Model gives its own [name] property, and on a node without one
    the read yields [undefined], which string concatenation prints as
    such. *)
Definition modelName (model : TypeId) : string :=
  match typeAt p model with
  | TModel m => name m
  | _ =>
    match nonModelName p model with
    | Some n => n
    | None => "undefined"
    end
  end.

(** [emitStoreInterface(model, collectionName)].  [writeFile] is called
    and not awaited: the call is recorded, with its path and text. *)
Definition emitStoreInterface (fuel : nat) (model : TypeId) (collectionName : JsValue)
    : Emit unit :=
  let storeCode := storeTemplate (modelName model) in
  let outPath := path_join (outputDir options) (modelName model +:+ ".ts") in
  fun st0 =>
    let st1 := {| typeDecls := [];
                  knownTypes := knownTypes st0;
                  madeDirs := madeDirs st0;
                  writtenFiles := writtenFiles st0 |} in
    match getTypeReference fuel model st1 with
    | Returned _ st2 =>
      let storeCode' :=
        foldl (fun code decl => code +:+ decl +:+ newline) storeCode (typeDecls st2) in
      Returned tt
        {| typeDecls := typeDecls st2;
           knownTypes := knownTypes st2;
           madeDirs := madeDirs st2;
           writtenFiles := writtenFiles st2 ++ [(outPath, storeCode')] |}
    | Thrown msg st2 => Thrown msg st2
    | Diverged => Diverged
    end.

(** [collectionName ?? model.name]. *)
Definition nullish (v : JsValue) (dflt : JsValue) : JsValue :=
  match v with
  | JsUndefined | JsNull => dflt
  | _ => v
  end.

(** The body of the [for ... of] loop of [emit], over the remaining entries. *)
Fixpoint emitLoop (fuel : nat) (entries : list (TypeId * JsValue)) : Emit unit :=
  match entries with
  | [] => ret tt
  | (model, collectionName) :: rest =>
    let! _ := emitStoreInterface fuel model
                (nullish collectionName (JsString (modelName model))) in
    emitLoop fuel rest
  end.

(** [emit()]: [mkdir] the output directory, then one artifact per entry of
    the state map; an exception leaves the loop.  The awaited [mkdir] is
    taken to succeed: the call is recorded and the loop follows. *)
Definition emit (fuel : nat) : Emit unit :=
  fun st =>
    emitLoop fuel (storeStateMap p)
      {| typeDecls := typeDecls st;
         knownTypes := knownTypes st;
         madeDirs := madeDirs st ++ [outputDir options];
         writtenFiles := writtenFiles st |}.

End Emitter.

(** [$store(context, t)]: [program.stateMap(storeKey).set(t, false)].
    [Map.prototype.set] keeps the position of a key that is already there. *)
Fixpoint stateMapSet (m : list (TypeId * JsValue)) (t : TypeId) (v : JsValue)
    : list (TypeId * JsValue) :=
  match m with
  | [] => [(t, v)]
  | (k, w) :: rest =>
    if decide (k = t) then (k, v) :: rest else (k, w) :: stateMapSet rest t v
  end.

Definition store_decorator (prog : Program) (t : TypeId) : Program :=
  {| typeAt := typeAt prog;
     getIntrinsicModelName := getIntrinsicModelName prog;
     storeStateMap := stateMapSet (storeStateMap prog) t (JsBool false);
     nonModelName := nonModelName prog |}.

(** ** Predicates used by the properties *)

(** The state a call ends in, when it ends (by a return or by a throw). *)
Definition finalState {A} (r : Run A) : option EmitterState :=
  match r with
  | Returned _ st => Some st
  | Thrown _ st => Some st
  | Diverged => None
  end.

Section Predicates.

Variable p : Program.

(** A Model that [generateModelType] treats as a composite: the host gives
    it no (truthy) intrinsic name. *)
Definition compositeModel (t : TypeId) : Prop :=
  exists m, typeAt p t = TModel m /\ truthyName (getIntrinsicModelName p t) = None.

(** Every key of the memo table is a composite Model and the stored
    reference is that Model's declaration name. *)
Definition memo_ok (st : EmitterState) : Prop :=
  forall k ref, knownTypes st !! k = Some ref ->
    exists m, typeAt p k = TModel m /\
              truthyName (getIntrinsicModelName p k) = None /\
              exists fuel, getModelDeclarationName p fuel m = Ok ref.

(** Every entry of the memo table has its declaration in [typeDecls]. *)
Definition memo_declared (st : EmitterState) : Prop :=
  forall k ref, knownTypes st !! k = Some ref ->
    exists props, interfaceDecl ref props ∈ typeDecls st.

(** [st'] is [st] after some resolution work: declarations were only
    appended, memo entries only added, and nothing else changed. *)
Definition extends (st st' : EmitterState) : Prop :=
  (exists ds, typeDecls st' = typeDecls st ++ ds) /\
  (forall k ref, knownTypes st !! k = Some ref -> knownTypes st' !! k = Some ref) /\
  madeDirs st' = madeDirs st /\
  writtenFiles st' = writtenFiles st.

(** What one resolution step guarantees between the state it starts in and
    the state it ends in. *)
Definition stepRel (st st' : EmitterState) : Prop :=
  (memo_ok st -> memo_ok st') /\
  (memo_declared st -> memo_declared st') /\
  extends st st'.

(** [R] relates the start state to the state in which the call ends. *)
Definition ends {A} (R : EmitterState -> EmitterState -> Prop)
    (st : EmitterState) (r : Run A) : Prop :=
  match finalState r with
  | Some st' => R st st'
  | None => True
  end.

(** With [fuel], no call that starts while [self] is outside the memo
    table and returns is a call on [self] or leaves [self] in the table. *)
Definition avoids (self : TypeId) (fuel : nat) : Prop :=
  forall t st ref st',
    knownTypes st !! self = None ->
    getTypeReference p fuel t st = Returned ref st' ->
    t <> self /\ knownTypes st' !! self = None.

(** States reached from [st] by successful resolutions, one after another. *)
Inductive laterInPass (st : EmitterState) : EmitterState -> Prop :=
| later_now : laterInPass st st
| later_step st1 st2 fuel t ref :
    laterInPass st st1 ->
    getTypeReference p fuel t st1 = Returned ref st2 ->
    laterInPass st st2.

(** Resolving a list of types one after another, threading the state. *)
Inductive resolvedInOrder (fuel : nat)
  : list TypeId -> EmitterState -> list string -> EmitterState -> Prop :=
| resolved_nil st : resolvedInOrder fuel [] st [] st
| resolved_cons t ts st ref st1 refs st2 :
    getTypeReference p fuel t st = Returned ref st1 ->
    resolvedInOrder fuel ts st1 refs st2 ->
    resolvedInOrder fuel (t :: ts) st (ref :: refs) st2.




End Predicates.

(** ** A sample program

    One type graph with the shapes the properties talk about:
    - 0, 1: the intrinsics [string] and [int32]; 15: an intrinsic [uint8]
      that the table does not know;
    - 2: [model Pet { name: string, tags?: string[] }], 3: [string[]];
    - 4, 5: [Owner] and [Shelter], two registered roots that both refer
      to [Pet];
    - 6: the union [string | int32]; 7: the union [Pet | string];
    - 8: [model Node { next?: Node }];
    - 9: [User]; 10: [Page<User>]; 11: [User[]]; 12: [Page<User[]>];
    - 13: an enum; 14: the numeric literal 42; 16: [Page<42>]. *)

Definition mkProp (n : string) (opt : bool) (t : TypeId) : ModelTypeProperty :=
  {| prop_name := n; prop_optional := opt; prop_type := t |}.

Definition mkModel (n : string) (props : list ModelTypeProperty)
    (targs : option (list TypeId)) : CadlType :=
  TModel {| name := n; properties := props; templateArguments := targs |}.

Definition userModel : ModelType :=
  {| name := "User"; properties := []; templateArguments := Some [] |}.
Definition pageOfUser : ModelType :=
  {| name := "Page"; properties := [mkProp "items" false 11];
     templateArguments := Some [9] |}.
Definition pageOfUserArray : ModelType :=
  {| name := "Page"; properties := [mkProp "items" false 11];
     templateArguments := Some [11] |}.
Definition pageOfLiteral : ModelType :=
  {| name := "Page"; properties := []; templateArguments := Some [14] |}.
Definition uint8Model : ModelType :=
  {| name := "uint8"; properties := []; templateArguments := None |}.
Definition int32Model : ModelType :=
  {| name := "int32"; properties := []; templateArguments := None |}.

Definition sampleTypes (t : TypeId) : CadlType :=
  match t with
  | 0 => mkModel "string" [] None
  | 1 => TModel int32Model
  | 2 => mkModel "Pet" [mkProp "name" false 0; mkProp "tags" true 3] None
  | 3 => TArray {| elementType := 0 |}
  | 4 => mkModel "Owner" [mkProp "pet" false 2] None
  | 5 => mkModel "Shelter" [mkProp "pet" false 2] None
  | 6 => TUnion [0; 1]
  | 7 => TUnion [2; 0]
  | 8 => mkModel "Node" [mkProp "next" true 8] None
  | 9 => TModel userModel
  | 10 => TModel pageOfUser
  | 11 => TArray {| elementType := 9 |}
  | 12 => TModel pageOfUserArray
  | 14 => TNumber "42"
  | 15 => TModel uint8Model
  | 16 => TModel pageOfLiteral
  | _ => TOther KEnum
  end.

Definition sampleIntrinsics (t : TypeId) : option string :=
  match t with
  | 0 => Some "string"
  | 1 => Some "int32"
  | 15 => Some "uint8"
  | _ => None
  end.

(** The enum 13 is [enum Color]; the other nodes that are not Models have
    no name. *)
Definition sampleNames (t : TypeId) : option string :=
  match t with
  | 13 => Some "Color"
  | _ => None
  end.

(** [Owner] and [Shelter] are decorated with [@store], in that order. *)
Definition sampleProgram : Program :=
  store_decorator
    (store_decorator
       {| typeAt := sampleTypes;
          getIntrinsicModelName := sampleIntrinsics;
          storeStateMap := [];
          nonModelName := sampleNames |} 4) 5.

(** The same program with other values recorded for the two stores. *)
Definition sampleProgramNamed : Program :=
  {| typeAt := sampleTypes;
     getIntrinsicModelName := sampleIntrinsics;
     storeStateMap := [(4, JsString "owners"); (5, JsNull)];
     nonModelName := sampleNames |}.

Definition sampleOptions : DataStoreEmitterOptions := {| outputDir := "out/store" |}.

(** [path.join] on two relative segments that need no normalization. *)
Definition samplePathJoin (dir file : string) : string := dir +:+ "/" +:+ file.

Definition petDecl : string := interfaceDecl "Pet" ["name: string"; "tags?: string[]"].
Definition ownerDecl : string := interfaceDecl "Owner" ["pet: Pet"].
Definition shelterDecl : string := interfaceDecl "Shelter" ["pet: Pet"].
(** ** Further definitions and predicates *)

(** The types decorated with [@store], in decoration order, starting from
    a program [p]. *)
Definition decorateAll (p : Program) (ts : list TypeId) : Program :=
  foldl store_decorator p ts.

(** The text written for a root named [modelName] whose pass collected
    [decls]: the template, then each declaration followed by a newline. *)
Definition artifactText (modelName : string) (decls : list string) : string :=
  foldl (fun code decl => code +:+ decl +:+ newline) (storeTemplate modelName) decls.

Section Graph.

Variable p : Program.

(** [x] holds a reference to [y] that the traversal follows: a property
    type of a composite Model, the element type of an Array, an option of
    a Union. *)
Definition refersTo (x y : TypeId) : Prop :=
  match typeAt p x with
  | TModel m =>
    truthyName (getIntrinsicModelName p x) = None /\
    exists prop, prop ∈ properties m /\ prop_type prop = y
  | TArray a => elementType a = y
  | TUnion opts => y ∈ opts
  | _ => False
  end.

(** Every type that [t] refers to, as a property type, a template
    argument, an element type or an option, is in [scope] and has a
    smaller rank than [t]. *)
Definition ranked (scope : TypeId -> Prop) (rk : TypeId -> nat) (t : TypeId) : Prop :=
  match typeAt p t with
  | TModel m =>
    (forall prop, prop ∈ properties m ->
       scope (prop_type prop) /\ rk (prop_type prop) < rk t) /\
    (forall args a, templateArguments m = Some args -> a ∈ args ->
       scope a /\ rk a < rk t)
  | TArray a => scope (elementType a) /\ rk (elementType a) < rk t
  | TUnion opts => forall o, o ∈ opts -> scope o /\ rk o < rk t
  | _ => True
  end.

(** The two messages the emitter throws with. *)
Definition emitterError (msg : string) : Prop :=
  (exists intrinsicName,
     msg = unknownIntrinsicMessage intrinsicName /\
     intrinsicName <> EmptyString /\
     instrinsicNameToTSType !! intrinsicName = None) \/
  msg = templateNameMessage.

(** [decl] is the interface declaration of a composite Model of the
    graph: named by name synthesis, with one field text per property. *)
Definition modelDeclaration (decl : string) : Prop :=
  exists t m typeRef props,
    typeAt p t = TModel m /\
    truthyName (getIntrinsicModelName p t) = None /\
    (exists fuel, getModelDeclarationName p fuel m = Ok typeRef) /\
    length props = length (properties m) /\
    decl = interfaceDecl typeRef props.

(** The body of the loop over the properties in [generateModelType]:
    the text pushed onto [props] for one property. *)
Definition resolveProperty (getTypeReference : TypeId -> Emit string)
    (prop : ModelTypeProperty) : Emit string :=
  let! r := getTypeReference (prop_type prop) in
  ret (propText prop r).

(** The state after [typeDecls = []] at the start of a pass of
    [emitStoreInterface]. *)
Definition startPass (st : EmitterState) : EmitterState :=
  {| typeDecls := [];
     knownTypes := knownTypes st;
     madeDirs := madeDirs st;
     writtenFiles := writtenFiles st |}.

(** The states an emitter goes through, each with the declarations that
    were in [typeDecls] when earlier passes ended ([past]): the emitter
    is created, makes a directory, starts a pass by emptying [typeDecls],
    runs a resolution to its return or throw, or calls [writeFile]. *)
Inductive reached : list string -> EmitterState -> Prop :=
| reached_created : reached [] createTsEmitter
| reached_mkdir past st dir :
    reached past st ->
    reached past {| typeDecls := typeDecls st;
                    knownTypes := knownTypes st;
                    madeDirs := madeDirs st ++ [dir];
                    writtenFiles := writtenFiles st |}
| reached_pass past st :
    reached past st ->
    reached (past ++ typeDecls st) (startPass st)
| reached_resolved past st fuel t st' :
    reached past st ->
    finalState (getTypeReference p fuel t st) = Some st' ->
    reached past st'
| reached_written past st file :
    reached past st ->
    reached past {| typeDecls := typeDecls st;
                    knownTypes := knownTypes st;
                    madeDirs := madeDirs st;
                    writtenFiles := writtenFiles st ++ [file] |}.

(** Every memo entry has its declaration among those of earlier passes
    or in the list of the current one. *)
Definition declaredWith (past : list string) (st : EmitterState) : Prop :=
  forall k ref, knownTypes st !! k = Some ref ->
    exists props, interfaceDecl ref props ∈ past ++ typeDecls st.

(** The state after [generateModelType] has pushed the declaration and
    set the memo entry. *)
Definition declared (st : EmitterState) (t : TypeId) (typeRef : string)
    (props : list string) : EmitterState :=
  {| typeDecls := typeDecls st ++ [interfaceDecl typeRef props];
     knownTypes := <[t := typeRef]> (knownTypes st);
     madeDirs := madeDirs st;
     writtenFiles := writtenFiles st |}.

End Graph.

(** ** A second sample program

    - 0: [model Author { books: Book[] }], 1: [Book[]];
    - 2: [model Book { by: Author | string }], 3: [Author | string];
      these four lie on a cycle through an Array and a Union;
    - 4: the intrinsic [string]; 6: an intrinsic [uint8] that the table
      does not know;
    - 5: [model Sensor { id: string, level: uint8, note: string }]. *)
Definition secondTypes (t : TypeId) : CadlType :=
  match t with
  | 0 => mkModel "Author" [mkProp "books" false 1] None
  | 1 => TArray {| elementType := 2 |}
  | 2 => mkModel "Book" [mkProp "by" false 3] None
  | 3 => TUnion [0; 4]
  | 4 => mkModel "string" [] None
  | 5 => mkModel "Sensor"
           [mkProp "id" false 4; mkProp "level" false 6; mkProp "note" false 4] None
  | 6 => mkModel "uint8" [] None
  | _ => TOther KEnum
  end.

Definition secondProgram : Program :=
  {| typeAt := secondTypes;
     getIntrinsicModelName :=
       fun t => match t with 4 => Some "string" | 6 => Some "uint8" | _ => None end;
     storeStateMap := [(0, JsBool false)];
     nonModelName := fun _ => None |}.

Definition sensorModel : ModelType :=
  {| name := "Sensor";
     properties := [mkProp "id" false 4; mkProp "level" false 6; mkProp "note" false 4];
     templateArguments := None |}.

(** A program with one Model, [Blank], that carries [@intrinsic("")]:
    the host returns the empty string as its intrinsic name. *)
Definition blankProgram : Program :=
  {| typeAt := fun t => match t with
                        | 0 => mkModel "Blank" [] None
                        | _ => TOther KEnum
                        end;
     getIntrinsicModelName := fun t => match t with
                                       | 0 => Some EmptyString
                                       | _ => None
                                       end;
     storeStateMap := [(0, JsBool false)];
     nonModelName := fun _ => None |}.

(** The sample program with three stores, the second of which is
    [Page<42>]. *)
Definition failingProgram : Program :=
  decorateAll {| typeAt := sampleTypes;
                 getIntrinsicModelName := sampleIntrinsics;
                 storeStateMap := [];
                 nonModelName := sampleNames |} [4; 16; 4; 5].

Definition petModel : ModelType :=
  {| name := "Pet"; properties := [mkProp "name" false 0; mkProp "tags" true 3];
     templateArguments := None |}.

(** A rank for the part of the sample program under [Owner]. *)
Definition ownerRank (t : TypeId) : nat :=
  match t with
  | 4 => 3
  | 2 => 2
  | 3 => 1
  | _ => 0
  end.

(** ** Resolution steps keep the memo invariant *)

Section Resolution.

Variable p : Program.


Lemma extends_refl st : extends st st.
Proof.
  repeat split; auto. exists []. by rewrite app_nil_r.
Qed.

Lemma extends_trans st1 st2 st3 : extends st1 st2 -> extends st2 st3 -> extends st1 st3.
Proof.
  intros ([d1 H1] & K1 & D1 & W1) ([d2 H2] & K2 & D2 & W2).
  repeat split; [| auto | congruence | congruence].
  exists (d1 ++ d2). by rewrite H2, H1, app_assoc.
Qed.

Lemma stepRel_refl st : (stepRel p) st st.
Proof. repeat split; auto using extends_refl; apply extends_refl. Qed.

Lemma stepRel_trans st1 st2 st3 : (stepRel p) st1 st2 -> (stepRel p) st2 st3 -> (stepRel p) st1 st3.
Proof.
  intros (A1 & B1 & C1) (A2 & B2 & C2).
  split; [auto | split; [auto | eauto using extends_trans]].
Qed.

Lemma ends_bind {A B} (R : EmitterState -> EmitterState -> Prop)
    (c : Emit A) (k : A -> Emit B) st :
  (forall s1 s2 s3, R s1 s2 -> R s2 s3 -> R s1 s3) ->
  ends R st (c st) ->
  (forall a st1, c st = Returned a st1 -> ends R st1 (k a st1)) ->
  ends R st (bind c k st).
Proof.
  intros HT Hc Hk. unfold bind, ends in *.
  destruct (c st) as [a st1 | msg st1 |] eqn:E; simpl in *; auto.
  specialize (Hk a st1 eq_refl).
  destruct (finalState (k a st1)); eauto.
Qed.

Lemma ends_mapM {A B} (R : EmitterState -> EmitterState -> Prop)
    (f : A -> Emit B) (xs : list A) :
  (forall s, R s s) ->
  (forall s1 s2 s3, R s1 s2 -> R s2 s3 -> R s1 s3) ->
  (forall x st, ends R st (f x st)) ->
  forall st, ends R st (mapM f xs st).
Proof.
  intros HR HT Hf. induction xs as [| x xs IH]; intros st; simpl.
  - apply HR.
  - apply ends_bind; auto. intros y st1 _.
    apply ends_bind; auto. intros ys st2 _. apply HR.
Qed.

Lemma getTypeReference_step fuel : forall t st, ends (stepRel p) st (getTypeReference p fuel t st).
Proof.
  induction fuel as [| fuel IH]; intros t st; simpl; [exact I |].
  destruct (knownTypes st !! t) as [ref |] eqn:Hmemo; [apply stepRel_refl |].
  unfold switchOnKind.
  destruct (typeAt p t) as [m | a | opts | v | k] eqn:Hnode;
    try apply stepRel_refl.
  - (* Model *)
    unfold generateModelType.
    destruct (truthyName (getIntrinsicModelName p t)) as [iname |] eqn:Hintr.
    { destruct (instrinsicNameToTSType !! iname); apply stepRel_refl. }
    pose proof (ends_mapM (stepRel p)
      (fun prop => let! r := getTypeReference p fuel (prop_type prop) in ret (propText prop r))
      (properties m) stepRel_refl stepRel_trans) as Hprops.
    unfold bind at 1.
    match goal with |- context [mapM ?f ?xs st] => destruct (mapM f xs st) as [props st1 | msg st1 |] eqn:Hrun end.
    + assert (Hst1 : (stepRel p) st st1).
      { specialize (Hprops ltac:(intros x s; apply ends_bind; [apply stepRel_trans | apply IH | intros; apply stepRel_refl]) st).
        rewrite Hrun in Hprops. exact Hprops. }
      unfold bind, liftO.
      destruct (getModelDeclarationName p fuel m) as [typeRef | msg |] eqn:Hname;
        [| exact Hst1 | exact I].
      unfold ends; simpl.
      destruct Hst1 as (Hok & Hdecl & ([ds Hds] & Hsub & Hdirs & Hfiles)).
      split; [| split].
      * intros H0 k ref; simpl. rewrite lookup_insert.
        case_decide as Hk.
        -- intros [= <-]. subst k. exists m. eauto.
        -- apply (Hok H0).
      * intros H0 k ref; simpl. rewrite lookup_insert.
        case_decide as Hk.
        -- intros [= <-]. exists props. apply elem_of_app. right. apply list_elem_of_singleton. done.
        -- intros Hl. destruct (Hdecl H0 k ref Hl) as [ps Hps]. exists ps.
           apply elem_of_app. by left.
      * repeat split; simpl; auto.
        -- exists (ds ++ [interfaceDecl typeRef props]). by rewrite Hds, app_assoc.
        -- intros k ref Hl. rewrite lookup_insert_ne; [auto |].
           intros <-. congruence.
    + specialize (Hprops ltac:(intros x s; apply ends_bind; [apply stepRel_trans | apply IH | intros; apply stepRel_refl]) st).
      rewrite Hrun in Hprops. exact Hprops.
    + exact I.
  - (* Array *)
    unfold generateArrayType. apply ends_bind; [apply stepRel_trans | apply IH |].
    intros; apply stepRel_refl.
  - (* Union *)
    apply ends_bind; [apply stepRel_trans | |].
    + apply ends_mapM; [apply stepRel_refl | apply stepRel_trans | apply IH].
    + intros; apply stepRel_refl.
Qed.

(** The memo invariant holds in a fresh emitter. *)
Lemma memo_ok_createTsEmitter : memo_ok p createTsEmitter.
Proof. intros k ref; simpl. by rewrite lookup_empty. Qed.

Lemma memo_declared_createTsEmitter : memo_declared createTsEmitter.
Proof. intros k ref; simpl. by rewrite lookup_empty. Qed.

(** Under the invariant only composite Models can hit the memo. *)
Lemma memo_miss st t :
  memo_ok p st -> ~ compositeModel p t -> knownTypes st !! t = None.
Proof.
  intros Hok Hn. destruct (knownTypes st !! t) as [ref |] eqn:E; [| done].
  destruct (Hok t ref E) as (m & Hm & Hi & _). exfalso. apply Hn. by exists m.
Qed.

Lemma getTypeReference_miss fuel t st :
  knownTypes st !! t = None ->
  getTypeReference p (S fuel) t st = switchOnKind p fuel (getTypeReference p fuel) t st.
Proof. intros H; simpl. by rewrite H. Qed.

Lemma getTypeReference_hit fuel t st ref :
  knownTypes st !! t = Some ref ->
  getTypeReference p (S fuel) t st = Returned ref st.
Proof. intros H; simpl. by rewrite H. Qed.

Lemma laterInPass_step st st' :
  laterInPass p st st' -> (stepRel p) st st'.
Proof.
  induction 1 as [| st1 st2 fuel t ref _ IH Hrun]; [apply stepRel_refl |].
  eapply stepRel_trans; [exact IH |].
  pose proof (getTypeReference_step fuel t st1) as H.
  rewrite Hrun in H. exact H.
Qed.

(** The builder keeps the memo invariant as well: it holds in every state
    the emitter goes through. *)
Lemma emitStoreInterface_memo_ok options path_join fuel model collectionName st :
  memo_ok p st ->
  ends (fun _ st' => memo_ok p st') st
       (emitStoreInterface p options path_join fuel model collectionName st).
Proof.
  intros Hok. unfold emitStoreInterface, ends.
  match goal with |- context [getTypeReference p fuel model ?s] =>
    pose proof (getTypeReference_step fuel model s) as Hstep;
    destruct (getTypeReference p fuel model s) as [r st2 | msg st2 |]
  end; simpl; [| | done].
  - destruct Hstep as (H & _ & _). intros k ref; simpl. by apply H.
  - destruct Hstep as (H & _ & _). by apply H.
Qed.

Lemma emitLoop_memo_ok options path_join fuel entries :
  forall st,
    memo_ok p st ->
    ends (fun _ st' => memo_ok p st') st (emitLoop p options path_join fuel entries st).
Proof.
  induction entries as [| [model c] entries IH]; intros st Hok; simpl; [done |].
  unfold bind.
  pose proof (emitStoreInterface_memo_ok options path_join fuel model
                (nullish c (JsString (modelName p model))) st Hok) as H.
  destruct (emitStoreInterface p options path_join fuel model _ st) as [u st1 | msg st1 |];
    [| exact H | done].
  by apply IH.
Qed.

End Resolution.

(** ** The intrinsic table *)

Lemma intrinsic_table_lookup (k : string) :
  instrinsicNameToTSType !! k =
    if decide (k = "boolean") then Some "boolean"
    else if decide (k = "int64") then Some "bigint"
    else if decide (k = "float32") then Some "number"
    else if decide (k = "float16") then Some "number"
    else if decide (k = "int16") then Some "number"
    else if decide (k = "int32") then Some "number"
    else if decide (k = "string") then Some "string"
    else None.
Proof.
  unfold instrinsicNameToTSType, newMap; simpl.
  repeat (rewrite lookup_insert; case_decide; [subst; by repeat (case_decide; [done || congruence |]) |]).
  rewrite lookup_empty.
  repeat (case_decide; [congruence |]). done.
Qed.

Lemma intrinsic_table_unknown (k : string) :
  k ∉ ["string"; "int32"; "int16"; "float16"; "float32"; "int64"; "boolean"] ->
  instrinsicNameToTSType !! k = None.
Proof.
  intros H. rewrite intrinsic_table_lookup.
  repeat (apply not_elem_of_cons in H as [? H]).
  repeat (case_decide; [congruence |]). done.
Qed.

Lemma truthyName_Some (s : string) : s <> EmptyString -> truthyName (Some s) = Some s.
Proof. destruct s; [done | auto]. Qed.

(** ** Properties *)

(** C7. A Type whose kind is none of Model, Array, Union and Number
    resolves to the text of the empty object type; the state, and with it
    the declaration list, is left as it was, and nothing is thrown. *)
Theorem unrecognized_kind_resolves_to_empty_object
    (p : Program) (fuel : nat) (t : TypeId) (st : EmitterState) :
  memo_ok p st ->
  (forall m, typeAt p t <> TModel m) ->
  (forall a, typeAt p t <> TArray a) ->
  (forall opts, typeAt p t <> TUnion opts) ->
  (forall v, typeAt p t <> TNumber v) ->
  getTypeReference p (S fuel) t st = Returned "{}" st.
Proof.
  intros Hok HM HA HU HN.
  rewrite getTypeReference_miss.
  - unfold switchOnKind.
    destruct (typeAt p t) as [m | a | opts | v | k]; [by destruct (HM m) | by destruct (HA a) | by destruct (HU opts) | by destruct (HN v) | done].
  - apply (memo_miss p); [done |]. intros (m & Hm & _). by apply (HM m).
Qed.

(** C7 on the sample program: the enum resolves to the empty object type. *)
Lemma unrecognized_kind_witness :
  getTypeReference sampleProgram 1 13 createTsEmitter = Returned "{}" createTsEmitter.
Proof.
  apply (unrecognized_kind_resolves_to_empty_object sampleProgram 0 13 createTsEmitter).
  - apply memo_ok_createTsEmitter.
  - intros m; simpl; discriminate.
  - intros a; simpl; discriminate.
  - intros opts; simpl; discriminate.
  - intros v; simpl; discriminate.
Defined.

(** C3, as the code has it. A Model whose intrinsic name is not empty
    and not one of string, int32, int16, float16, float32, int64, boolean:
    resolving it throws the unknown intrinsic error, and a pass started on
    it ends with that error and writes no artifact.  (The test
    [if (intrinsicName)] takes the empty name for no name.) *)
Theorem unknown_intrinsic_throws
    (p : Program) (fuel : nat) (t : TypeId) (m : ModelType)
    (intrinsicName : string) (st : EmitterState) :
  memo_ok p st ->
  typeAt p t = TModel m ->
  getIntrinsicModelName p t = Some intrinsicName ->
  intrinsicName <> EmptyString ->
  intrinsicName ∉ ["string"; "int32"; "int16"; "float16"; "float32"; "int64"; "boolean"] ->
  getTypeReference p (S fuel) t st
    = Thrown ("Unknown intrinsic type " +:+ intrinsicName) st /\
  forall options path_join collectionName,
    exists st',
      emitStoreInterface p options path_join (S fuel) t collectionName st
        = Thrown ("Unknown intrinsic type " +:+ intrinsicName) st' /\
      writtenFiles st' = writtenFiles st.
Proof.
  intros Hok Hm Hi Hne Hnot.
  assert (Hrun : forall st0, knownTypes st0 = knownTypes st ->
            getTypeReference p (S fuel) t st0
              = Thrown ("Unknown intrinsic type " +:+ intrinsicName) st0).
  { intros st0 Hk. rewrite getTypeReference_miss.
    - unfold switchOnKind. rewrite Hm. unfold generateModelType.
      rewrite Hi, truthyName_Some by done.
      by rewrite intrinsic_table_unknown.
    - rewrite Hk. apply (memo_miss p); [done |].
      intros (m' & _ & Hc). rewrite Hi, truthyName_Some in Hc; done. }
  split; [by apply Hrun |].
  intros options path_join collectionName. eexists.
  unfold emitStoreInterface. rewrite Hrun by done. split; reflexivity.
Qed.

(** C3 on the sample program: the intrinsic [uint8] is not in the table. *)
Lemma unknown_intrinsic_witness :
  getTypeReference sampleProgram 1 15 createTsEmitter
    = Thrown "Unknown intrinsic type uint8" createTsEmitter.
Proof.
  refine (proj1 (unknown_intrinsic_throws sampleProgram 0 15
            uint8Model
            "uint8" createTsEmitter _ _ _ _ _)).
  - apply memo_ok_createTsEmitter.
  - reflexivity.
  - reflexivity.
  - discriminate.
  - vm_compute. intros H. repeat (apply elem_of_cons in H as [H | H]; [discriminate H |]). by apply elem_of_nil in H.
Defined.

(** C3 as stated fails at the empty intrinsic name: [Blank] has the
    intrinsic name [""], which is not one of the seven, and resolving it
    throws nothing: it returns [Blank] and declares an interface. *)
Lemma empty_intrinsic_name_does_not_throw :
  typeAt blankProgram 0 = mkModel "Blank" [] None /\
  getIntrinsicModelName blankProgram 0 = Some EmptyString /\
  (EmptyString ∉ ["string"; "int32"; "int16"; "float16"; "float32"; "int64"; "boolean"]) /\
  exists st',
    getTypeReference blankProgram 2 0 createTsEmitter = Returned "Blank" st' /\
    typeDecls st' = [interfaceDecl "Blank" []].
Proof.
  split; [reflexivity |]. split; [reflexivity |]. split.
  - intros H. repeat (apply elem_of_cons in H as [H | H]; [discriminate H |]).
    by apply elem_of_nil in H.
  - eexists. split; [vm_compute; reflexivity | reflexivity].
Qed.

(** C6. The intrinsic table holds exactly the seven entries string to
    string, int32, int16, float16 and float32 to number, int64 to bigint,
    boolean to boolean; a Model with one of these intrinsic names resolves
    to the mapped reference and the state, and with it the declaration
    list, is left as it was. *)
Theorem intrinsic_model_resolves_by_table
    (p : Program) (fuel : nat) (t : TypeId) (m : ModelType)
    (intrinsicName ts : string) (st : EmitterState) :
  memo_ok p st ->
  typeAt p t = TModel m ->
  getIntrinsicModelName p t = Some intrinsicName ->
  (intrinsicName, ts) ∈ [ ("string", "string"); ("int32", "number");
                           ("int16", "number"); ("float16", "number");
                           ("float32", "number"); ("int64", "bigint");
                           ("boolean", "boolean") ] ->
  getTypeReference p (S fuel) t st = Returned ts st /\
  forall k v,
    instrinsicNameToTSType !! k = Some v <->
    (k, v) ∈ [ ("string", "string"); ("int32", "number");
                ("int16", "number"); ("float16", "number");
                ("float32", "number"); ("int64", "bigint");
                ("boolean", "boolean") ].
Proof.
  intros Hok Hm Hi Hin.
  assert (Htable : forall k v,
    instrinsicNameToTSType !! k = Some v <->
    (k, v) ∈ [ ("string", "string"); ("int32", "number");
                ("int16", "number"); ("float16", "number");
                ("float32", "number"); ("int64", "bigint");
                ("boolean", "boolean") ]).
  { intros k v. rewrite intrinsic_table_lookup. split.
    - repeat (case_decide;
                [intros [= <-]; subst k;
                 repeat first [apply list_elem_of_here | apply list_elem_of_further] |]).
      done.
    - intros H.
      repeat (apply elem_of_cons in H as [H | H];
                [injection H as -> ->; reflexivity |]).
      by apply elem_of_nil in H. }
  split; [| exact Htable].
  assert (Hne : intrinsicName <> EmptyString).
  { intros ->.
    repeat (apply elem_of_cons in Hin as [Hin | Hin]; [discriminate Hin |]).
    by apply elem_of_nil in Hin. }
  rewrite getTypeReference_miss.
  - unfold switchOnKind. rewrite Hm. unfold generateModelType.
    rewrite Hi, truthyName_Some by done.
    apply Htable in Hin. by rewrite Hin.
  - apply (memo_miss p); [done |].
    intros (m' & _ & Hc). rewrite Hi, truthyName_Some in Hc; done.
Qed.

(** C6 on the sample program: the intrinsic [int32] resolves to [number]. *)
Lemma intrinsic_model_witness :
  getTypeReference sampleProgram 1 1 createTsEmitter = Returned "number" createTsEmitter.
Proof.
  refine (proj1 (intrinsic_model_resolves_by_table sampleProgram 0 1
            int32Model
            "int32" "number" createTsEmitter _ _ _ _)).
  - apply memo_ok_createTsEmitter.
  - reflexivity.
  - reflexivity.
  - repeat first [apply list_elem_of_here | apply list_elem_of_further].
Defined.

Lemma mapM_resolvedInOrder (p : Program) (fuel : nat) (ts : list TypeId)
    (st : EmitterState) (refs : list string) (st' : EmitterState) :
  resolvedInOrder p fuel ts st refs st' ->
  mapM (getTypeReference p fuel) ts st = Returned refs st'.
Proof.
  induction 1 as [st | t ts st ref st1 refs st2 Hrun _ IH]; [reflexivity |].
  simpl. unfold bind. rewrite Hrun, IH. reflexivity.
Qed.

(** C5, as the code has it. The reference of a Union is the references of
    its options, resolved one after another in option order, joined with a
    vertical bar; the Union adds no declaration and no memo entry of its
    own: the state after resolving it is the state after resolving its
    options. *)
Theorem union_reference_joins_option_references
    (p : Program) (fuel : nat) (t : TypeId) (opts : list TypeId)
    (st : EmitterState) (refs : list string) (st' : EmitterState) :
  memo_ok p st ->
  typeAt p t = TUnion opts ->
  resolvedInOrder p fuel opts st refs st' ->
  getTypeReference p (S fuel) t st = Returned (join "|" refs) st'.
Proof.
  intros Hok Ht Hopts.
  rewrite getTypeReference_miss.
  - unfold switchOnKind. rewrite Ht. unfold bind.
    by rewrite (mapM_resolvedInOrder p fuel opts st refs st').
  - apply (memo_miss p); [done |]. intros (m & Hm & _). congruence.
Qed.

(** C5 on the sample program: the union [string | int32] resolves to
    [string|number] and the state is left as it was. *)
Lemma union_of_string_and_int32 :
  getTypeReference sampleProgram 2 6 createTsEmitter
    = Returned "string|number" createTsEmitter.
Proof.
  apply (union_reference_joins_option_references sampleProgram 1 6 [0; 1]
           createTsEmitter ["string"; "number"] createTsEmitter).
  - apply memo_ok_createTsEmitter.
  - reflexivity.
  - apply resolved_cons with (st1 := createTsEmitter); [reflexivity |].
    apply resolved_cons with (st1 := createTsEmitter); [reflexivity |].
    apply resolved_nil.
Defined.

(** C5 as stated fails: resolving the union [Pet | string] in a fresh
    emitter appends the declaration of [Pet], so the declaration list is
    not left as it was. *)
Lemma union_with_model_option_appends_declaration :
  typeAt sampleProgram 7 = TUnion [2; 0] /\
  typeDecls createTsEmitter = [] /\
  exists st',
    getTypeReference sampleProgram 4 7 createTsEmitter = Returned "Pet|string" st' /\
    typeDecls st' = [petDecl].
Proof.
  split; [reflexivity |]. split; [reflexivity |].
  eexists. split; [vm_compute; reflexivity | reflexivity].
Qed.

(** C8. Once resolving a Model has returned a reference, resolving the
    same Model again later in the pass returns the same reference and
    leaves the state, and with it the declaration list, as it was. *)
Theorem memoization_is_idempotent
    (p : Program) (fuel fuel' : nat) (t : TypeId) (m : ModelType)
    (st : EmitterState) (ref : string) (st1 st2 : EmitterState) :
  memo_ok p st ->
  typeAt p t = TModel m ->
  getTypeReference p fuel t st = Returned ref st1 ->
  laterInPass p st1 st2 ->
  getTypeReference p (S fuel') t st2 = Returned ref st2.
Proof.
  intros Hok Ht Hrun Hlater.
  pose proof (getTypeReference_step p fuel t st) as Hstep.
  rewrite Hrun in Hstep. destruct Hstep as (Hok1 & _ & _).
  destruct (laterInPass_step p st1 st2 Hlater) as (Hok2 & _ & (_ & Hsub & _)).
  destruct fuel as [| fuel]; [discriminate Hrun |].
  simpl in Hrun.
  destruct (knownTypes st !! t) as [r |] eqn:Hmemo.
  - injection Hrun as <- <-. by apply getTypeReference_hit, Hsub.
  - unfold switchOnKind in Hrun. rewrite Ht in Hrun.
    unfold generateModelType in Hrun.
    destruct (truthyName (getIntrinsicModelName p t)) as [iname |] eqn:Hintr.
    + destruct (instrinsicNameToTSType !! iname) as [ts |] eqn:Htab; [| discriminate Hrun].
      injection Hrun as <- <-.
      rewrite getTypeReference_miss.
      * unfold switchOnKind. rewrite Ht. unfold generateModelType.
        by rewrite Hintr, Htab.
      * apply (memo_miss p); [auto |]. intros (m' & _ & Hc). congruence.
    + unfold bind in Hrun.
      match type of Hrun with context [mapM ?f ?xs st] =>
        destruct (mapM f xs st) as [props st0 | msg st0 |]; [| discriminate Hrun ..] end.
      unfold liftO in Hrun.
      destruct (getModelDeclarationName p fuel m) as [typeRef | msg |]; [| discriminate Hrun ..].
      injection Hrun as <- <-.
      apply getTypeReference_hit, Hsub. simpl. apply lookup_insert_eq.
Qed.

(** C8 on the sample program: [Pet] resolved twice in a row. *)
Lemma memoization_witness :
  exists st1,
    getTypeReference sampleProgram 3 2 createTsEmitter = Returned "Pet" st1 /\
    getTypeReference sampleProgram 1 2 st1 = Returned "Pet" st1.
Proof.
  eexists. split; [vm_compute; reflexivity |].
  eapply (memoization_is_idempotent sampleProgram 3 0 2 _ createTsEmitter "Pet" _ _).
  - apply memo_ok_createTsEmitter.
  - reflexivity.
  - vm_compute; reflexivity.
  - apply later_now.
Defined.

(** ** Name synthesis *)

Lemma append_empty_r (s : string) : s +:+ EmptyString = s.
Proof.
  induction s as [| c s IH]; [done |].
  change (String c (s +:+ EmptyString) = String c s). by rewrite IH.
Qed.



Section NameSynthesis.

Variable p : Program.


(** The only exception [getModelDeclarationName] throws. *)
Lemma getModelDeclarationName_throw fuel :
  forall type msg,
    getModelDeclarationName p fuel type = Throw msg -> msg = templateNameMessage.
Proof.
  induction fuel as [| fuel IH]; intros type msg; simpl; [done |].
  destruct (templateArguments type) as [[| a args] |]; try done.
  generalize (a :: args). clear a args. intros args.
  assert (Hargs : forall msg', omap (templateArgumentName p (getModelDeclarationName p fuel)) args
            = Throw msg' -> msg' = templateNameMessage).
  { induction args as [| t args IHargs]; intros msg'; simpl; [done |].
    unfold templateArgumentName at 1.
    destruct (typeAt p t) as [m | a | | |]; simpl; try (by intros [= <-]).
    - destruct (getModelDeclarationName p fuel m) eqn:E; simpl; try done.
      + destruct (omap _ args); simpl; try done. intros [= <-]. by apply IHargs.
      + intros [= <-]. by apply (IH m).
    - destruct (typeAt p (elementType a)) as [em | | | |]; simpl; try (by intros [= <-]).
      destruct (getModelDeclarationName p fuel em) eqn:E; simpl; try done.
      + destruct (omap _ args); simpl; try done. intros [= <-]. by apply IHargs.
      + intros [= <-]. by apply (IH em). }
  destruct (omap _ args) eqn:E; simpl; try done.
  intros [= <-]. by apply Hargs.
Qed.




End NameSynthesis.



(** ** The builder *)

Lemma omap_ext {A B} (f g : A -> Outcome B) (xs : list A) :
  (forall x, f x = g x) -> omap f xs = omap g xs.
Proof.
  intros H. induction xs as [| x xs IH]; simpl; [done |]. by rewrite H, IH.
Qed.

Lemma mapM_ext {A B} (f g : A -> Emit B) (xs : list A) :
  (forall x st, f x st = g x st) -> forall st, mapM f xs st = mapM g xs st.
Proof.
  intros H. induction xs as [| x xs IH]; intros st; simpl; [done |].
  unfold bind. rewrite H. destruct (g x st) as [y st1 | |]; [| done ..].
  by rewrite IH.
Qed.

Section SameGraph.

(** Two programs with the same type graph and the same intrinsic names. *)
Variables p1 p2 : Program.
Hypothesis same_types : forall t, typeAt p1 t = typeAt p2 t.
Hypothesis same_intrinsics :
  forall t, getIntrinsicModelName p1 t = getIntrinsicModelName p2 t.
Hypothesis same_names : forall t, nonModelName p1 t = nonModelName p2 t.

Lemma getModelDeclarationName_ext fuel :
  forall type, getModelDeclarationName p1 fuel type = getModelDeclarationName p2 fuel type.
Proof.
  induction fuel as [| fuel IH]; intros type; simpl; [done |].
  destruct (templateArguments type) as [[| a args] |]; try done.
  f_equal. apply omap_ext. intros t. unfold templateArgumentName.
  rewrite <- same_types. destruct (typeAt p1 t) as [m | arr | | |]; try done.
  rewrite <- same_types. destruct (typeAt p1 (elementType arr)); try done.
  by rewrite IH.
Qed.

Lemma getTypeReference_ext fuel :
  forall t st, getTypeReference p1 fuel t st = getTypeReference p2 fuel t st.
Proof.
  induction fuel as [| fuel IH]; intros t st; simpl; [done |].
  destruct (knownTypes st !! t); [done |].
  unfold switchOnKind. rewrite <- same_types.
  destruct (typeAt p1 t) as [m | a | opts | v | k]; try done.
  - unfold generateModelType. rewrite <- same_intrinsics.
    destruct (truthyName (getIntrinsicModelName p1 t)); [done |].
    unfold bind.
    rewrite (mapM_ext _
      (fun prop => let! r := getTypeReference p2 fuel (prop_type prop) in
                   ret (propText prop r))).
    + by rewrite getModelDeclarationName_ext.
    + intros prop st0. unfold bind. by rewrite IH.
  - unfold generateArrayType, bind. by rewrite IH.
  - unfold bind. by rewrite (mapM_ext _ (getTypeReference p2 fuel)).
Qed.

Lemma modelName_ext model : modelName p1 model = modelName p2 model.
Proof. unfold modelName. by rewrite same_types, same_names. Qed.

Lemma emitStoreInterface_ext options path_join fuel model c1 c2 st :
  emitStoreInterface p1 options path_join fuel model c1 st
    = emitStoreInterface p2 options path_join fuel model c2 st.
Proof.
  unfold emitStoreInterface. by rewrite getTypeReference_ext, modelName_ext.
Qed.

Lemma emitLoop_ext options path_join fuel :
  forall entries1 entries2 st,
    entries1.*1 = entries2.*1 ->
    emitLoop p1 options path_join fuel entries1 st
      = emitLoop p2 options path_join fuel entries2 st.
Proof.
  induction entries1 as [| [m1 c1] entries1 IH]; intros [| [m2 c2] entries2] st Hkeys;
    try done.
  simpl in Hkeys. injection Hkeys as -> Hkeys.
  simpl. unfold bind.
  rewrite (emitStoreInterface_ext options path_join fuel m2
             (nullish c1 (JsString (modelName p1 m2)))
             (nullish c2 (JsString (modelName p2 m2)))).
  destruct (emitStoreInterface p2 _ _ _ _ _ st) as [u st1 | |]; [| done ..].
  by apply IH.
Qed.

End SameGraph.

(** C9, as the code has it. The value recorded with a registration plays
    no part in what is emitted: [emitStoreInterface] gives the same result
    whatever [collectionName] it is passed, and two programs with the same
    type graph and the same registered roots in the same order, whatever
    the values recorded with them, make [emit] end in the same state,
    hence with the same files written at the same paths. *)
Theorem collection_name_is_ignored
    (p1 p2 : Program) (options : DataStoreEmitterOptions)
    (path_join : string -> string -> string) (fuel : nat) (st : EmitterState) :
  (forall t, typeAt p1 t = typeAt p2 t) ->
  (forall t, getIntrinsicModelName p1 t = getIntrinsicModelName p2 t) ->
  (forall t, nonModelName p1 t = nonModelName p2 t) ->
  (storeStateMap p1).*1 = (storeStateMap p2).*1 ->
  emit p1 options path_join fuel st = emit p2 options path_join fuel st /\
  forall model collectionName1 collectionName2,
    emitStoreInterface p1 options path_join fuel model collectionName1 st
      = emitStoreInterface p1 options path_join fuel model collectionName2 st.
Proof.
  intros Ht Hi Hn Hkeys. split.
  - unfold emit. by apply emitLoop_ext.
  - intros model c1 c2. reflexivity.
Qed.

(** C9 on the sample program and its variant with other recorded values. *)
Lemma collection_name_witness :
  emit sampleProgram sampleOptions samplePathJoin 5 createTsEmitter
    = emit sampleProgramNamed sampleOptions samplePathJoin 5 createTsEmitter.
Proof.
  refine (proj1 (collection_name_is_ignored sampleProgram sampleProgramNamed
                   sampleOptions samplePathJoin 5 createTsEmitter _ _ _ _)).
  - reflexivity.
  - reflexivity.
  - reflexivity.
  - reflexivity.
Defined.

(** C9 as stated fails: the artifact does not depend on the root Model
    only.  The pass of [Shelter] writes one text in a fresh emitter and
    another text, at the same path, after the pass of [Owner]. *)
Lemma artifact_depends_on_earlier_roots :
  exists st1,
    emitStoreInterface sampleProgram sampleOptions samplePathJoin 5 4 (JsBool false)
      createTsEmitter = Returned tt st1 /\
    writtenFiles <$> finalState
        (emitStoreInterface sampleProgram sampleOptions samplePathJoin 5 5 (JsBool false)
           createTsEmitter)
      = Some [("out/store/Shelter.ts",
               storeTemplate "Shelter" +:+ petDecl +:+ newline +:+ shelterDecl +:+ newline)] /\
    writtenFiles <$> finalState
        (emitStoreInterface sampleProgram sampleOptions samplePathJoin 5 5 (JsBool false) st1)
      = Some (writtenFiles st1 ++
              [("out/store/Shelter.ts",
                storeTemplate "Shelter" +:+ shelterDecl +:+ newline)]) /\
    storeTemplate "Shelter" +:+ petDecl +:+ newline +:+ shelterDecl +:+ newline
      <> storeTemplate "Shelter" +:+ shelterDecl +:+ newline.
Proof.
  eexists. split; [vm_compute; reflexivity |].
  split; [vm_compute; reflexivity |].
  split; [vm_compute; reflexivity |].
  vm_compute. discriminate.
Qed.

(** C1, on the code. [knownTypes] is created once per emitter and is not
    cleared between roots; only [typeDecls] is.  With [Owner] and
    [Shelter] registered in that order, [Owner.ts] gets the declarations
    of [Pet] and [Owner], and [Shelter.ts] gets the declaration of
    [Shelter] alone although it refers to [Pet]; resolving [Shelter] in a
    fresh emitter declares [Pet] and [Shelter]. *)
Theorem second_root_artifact_misses_shared_declaration :
  storeStateMap sampleProgram = [(4, JsBool false); (5, JsBool false)] /\
  writtenFiles <$> finalState (emit sampleProgram sampleOptions samplePathJoin 5 createTsEmitter)
    = Some [ ("out/store/Owner.ts",
              storeTemplate "Owner" +:+ petDecl +:+ newline +:+ ownerDecl +:+ newline);
             ("out/store/Shelter.ts",
              storeTemplate "Shelter" +:+ shelterDecl +:+ newline) ] /\
  typeDecls <$> finalState (getTypeReference sampleProgram 5 5 createTsEmitter)
    = Some [petDecl; shelterDecl].
Proof.
  split; [reflexivity |]. split; vm_compute; reflexivity.
Qed.

(** A root that is already in the memo table gets an artifact without any
    declaration. *)
Lemma memoized_root_gets_no_declarations
    (p : Program) (options : DataStoreEmitterOptions)
    (path_join : string -> string -> string) (fuel : nat)
    (model : TypeId) (collectionName : JsValue) (st : EmitterState) (ref : string) :
  knownTypes st !! model = Some ref ->
  writtenFiles <$> finalState
      (emitStoreInterface p options path_join (S fuel) model collectionName st)
    = Some (writtenFiles st ++
            [(path_join (outputDir options) (modelName p model +:+ ".ts"),
              storeTemplate (modelName p model))]).
Proof.
  intros H. unfold emitStoreInterface.
  rewrite (getTypeReference_hit p fuel model _ ref) by done. reflexivity.
Qed.

(** ** Self-referential Models *)

Section SelfReference.

Variable p : Program.
Variable self : TypeId.
Variable type : ModelType.
Variable prop : ModelTypeProperty.
Hypothesis self_model : typeAt p self = TModel type.
Hypothesis self_composite : truthyName (getIntrinsicModelName p self) = None.
Hypothesis self_prop : prop ∈ properties type.
Hypothesis self_ref : prop_type prop = self.

Lemma mapM_avoids {A B} (f : A -> Emit B) (target : A -> TypeId) :
  (forall x st y st',
     knownTypes st !! self = None ->
     f x st = Returned y st' ->
     target x <> self /\ knownTypes st' !! self = None) ->
  forall xs st ys st',
    knownTypes st !! self = None ->
    mapM f xs st = Returned ys st' ->
    knownTypes st' !! self = None /\ forall x, x ∈ xs -> target x <> self.
Proof.
  intros Hf. induction xs as [| x xs IH]; intros st ys st' Hmiss; simpl.
  - intros [= <- <-]. split; [done |]. intros x Hx. by apply elem_of_nil in Hx.
  - unfold bind at 1.
    destruct (f x st) as [y st1 | |] eqn:Hx; [| done ..].
    destruct (Hf _ _ _ _ Hmiss Hx) as [Hne Hmiss1].
    unfold bind.
    destruct (mapM f xs st1) as [ys' st2 | |] eqn:Hxs; [| done ..].
    intros [= <- <-].
    destruct (IH st1 ys' st2 Hmiss1 Hxs) as [Hmiss2 Hall].
    split; [done |]. intros z [-> | Hz]%elem_of_cons; auto.
Qed.

(** While [self] is being resolved it is not in the memo table, so no
    call that returns can have gone through it. *)
Lemma getTypeReference_avoids fuel : avoids p self fuel.
Proof.
  induction fuel as [| fuel IH]; intros t st ref st' Hmiss; simpl; [done |].
  destruct (knownTypes st !! t) as [r |] eqn:Hmemo.
  { intros [= <- <-]. split; [congruence | done]. }
  unfold switchOnKind.
  destruct (typeAt p t) as [m | a | opts | v | k] eqn:Hnode.
  - unfold generateModelType.
    destruct (truthyName (getIntrinsicModelName p t)) as [iname |] eqn:Hintr.
    { destruct (instrinsicNameToTSType !! iname); [| done].
      intros [= <- <-]. split; [congruence | done]. }
    unfold bind at 1.
    match goal with |- context [mapM ?f ?xs st] =>
      destruct (mapM f xs st) as [props st1 | |] eqn:Hprops; [| done ..] end.
    assert (Hf : forall x s0 y s1,
              knownTypes s0 !! self = None ->
              (let! r := getTypeReference p fuel (prop_type x) in ret (propText x r)) s0
                = Returned y s1 ->
              prop_type x <> self /\ knownTypes s1 !! self = None).
    { intros x s0 y s1 Hs0. unfold bind.
      destruct (getTypeReference p fuel (prop_type x) s0) as [r s2 | |] eqn:Hx; [| done ..].
      intros [= <- <-]. exact (IH _ _ _ _ Hs0 Hx). }
    destruct (mapM_avoids _ prop_type Hf _ _ _ _ Hmiss Hprops) as [Hmiss1 Hall].
    assert (Hne : t <> self).
    { intros ->. rewrite self_model in Hnode. injection Hnode as <-.
      by apply (Hall prop self_prop). }
    unfold bind, liftO.
    destruct (getModelDeclarationName p fuel m); [| done ..].
    intros [= <- <-]. split; [done |]. simpl. by rewrite lookup_insert_ne.
  - unfold generateArrayType, bind.
    destruct (getTypeReference p fuel (elementType a) st) as [r st1 | |] eqn:Hel; [| done ..].
    intros [= <- <-]. destruct (IH _ _ _ _ Hmiss Hel) as [_ Hmiss1].
    split; [congruence | done].
  - unfold bind.
    destruct (mapM (getTypeReference p fuel) opts st) as [refs st1 | |] eqn:Hopts; [| done ..].
    intros [= <- <-]. split; [congruence |].
    by destruct (mapM_avoids _ id IH _ _ _ _ Hmiss Hopts).
  - intros [= <- <-]. split; [congruence | done].
  - intros [= <- <-]. split; [congruence | done].
Qed.

(** Resolving a Model that has a property of its own type never returns:
    the memo entry is written only after the properties are resolved. *)
Lemma self_reference_never_returns fuel st ref st' :
  knownTypes st !! self = None ->
  getTypeReference p fuel self st <> Returned ref st'.
Proof.
  intros Hmiss Hrun.
  by destruct (getTypeReference_avoids fuel self st ref st' Hmiss Hrun).
Qed.

End SelfReference.

(** C2, on the code. [Node] has a property [next] of type [Node];
    resolving it in a fresh emitter does not return whatever depth of
    recursion is allowed, and so appends no declaration. *)
Theorem self_referential_model_does_not_terminate (fuel : nat) :
  getTypeReference sampleProgram fuel 8 createTsEmitter = Diverged.
Proof.
  assert (H : forall st, knownTypes st !! 8 = None ->
                         getTypeReference sampleProgram fuel 8 st = Diverged).
  { induction fuel as [| fuel IH]; intros st Hmiss; [reflexivity |].
    rewrite getTypeReference_miss by done.
    unfold switchOnKind; simpl. unfold generateModelType; simpl.
    unfold bind. by rewrite (IH st Hmiss). }
  apply H. reflexivity.
Qed.

(** ** Further properties of the resolver *)

Lemma mapM_length {A B} (f : A -> Emit B) (xs : list A) :
  forall st ys st', mapM f xs st = Returned ys st' -> length ys = length xs.
Proof.
  induction xs as [| x xs IH]; intros st ys st'; simpl.
  - by intros [= <- _].
  - unfold bind.
    destruct (f x st) as [y st1 | |]; [| done ..].
    destruct (mapM f xs st1) as [ys' st2 | |] eqn:E; [| done ..].
    intros [= <- _]. simpl. f_equal. by apply (IH st1 ys' st2).
Qed.

Section Steps.

Variable p : Program.

(** An induction principle for the traversal: a reflexive and transitive
    relation that is kept when a composite Model, first visited in [st],
    is declared after its properties were resolved into [st1], holds
    between the start and the end of every call. *)
Lemma getTypeReference_rel (R : EmitterState -> EmitterState -> Prop) :
  (forall s, R s s) ->
  (forall s1 s2 s3, R s1 s2 -> R s2 s3 -> R s1 s3) ->
  (forall fuel t m st st1 props typeRef,
     knownTypes st !! t = None ->
     typeAt p t = TModel m ->
     truthyName (getIntrinsicModelName p t) = None ->
     R st st1 ->
     getModelDeclarationName p fuel m = Ok typeRef ->
     length props = length (properties m) ->
     R st (declared st1 t typeRef props)) ->
  forall fuel t st, ends R st (getTypeReference p fuel t st).
Proof.
  intros Hrefl Htrans Hdecl.
  induction fuel as [| fuel IH]; intros t st; simpl; [exact I |].
  destruct (knownTypes st !! t) as [ref |] eqn:Hmemo; [apply Hrefl |].
  unfold switchOnKind.
  destruct (typeAt p t) as [m | a | opts | v | k] eqn:Hnode; try apply Hrefl.
  - unfold generateModelType.
    destruct (truthyName (getIntrinsicModelName p t)) as [iname |] eqn:Hintr.
    { destruct (instrinsicNameToTSType !! iname); apply Hrefl. }
    assert (Hprops : forall s, ends R s
              (mapM (fun prop => let! r := getTypeReference p fuel (prop_type prop) in
                                 ret (propText prop r)) (properties m) s)).
    { apply ends_mapM; [done | done |]. intros x s.
      apply ends_bind; [done | apply IH | intros; apply Hrefl]. }
    specialize (Hprops st). unfold bind at 1.
    match goal with |- context [mapM ?f ?xs st] =>
      destruct (mapM f xs st) as [props st1 | msg st1 |] eqn:Hrun end;
      [| exact Hprops | exact I].
    unfold bind, liftO.
    destruct (getModelDeclarationName p fuel m) as [typeRef | msg |] eqn:Hname;
      [| exact Hprops | exact I].
    apply (Hdecl fuel t m st st1 props typeRef); try done.
    by apply mapM_length in Hrun.
  - unfold generateArrayType. apply ends_bind; [done | apply IH |].
    intros; apply Hrefl.
  - apply ends_bind; [done | |].
    + apply ends_mapM; [done | done | apply IH].
    + intros; apply Hrefl.
Qed.

End Steps.

(** Declarations are only appended and each appended one is the
    interface of a composite Model. *)
Lemma getTypeReference_appends (p : Program) (fuel : nat) (t : TypeId) (st : EmitterState) :
  ends (fun s s' => exists ds, typeDecls s' = typeDecls s ++ ds /\
                               Forall (modelDeclaration p) ds)
       st (getTypeReference p fuel t st).
Proof.
  apply getTypeReference_rel.
  - intros s. exists []. by rewrite app_nil_r.
  - intros s1 s2 s3 (d1 & H1 & F1) (d2 & H2 & F2). exists (d1 ++ d2).
    split; [by rewrite H2, H1, app_assoc | by apply Forall_app].
  - intros fuel0 t0 m st0 st1 props typeRef _ Hm Hi (ds & Hds & Fds) Hname Hlen.
    exists (ds ++ [interfaceDecl typeRef props]). simpl.
    split; [by rewrite Hds, app_assoc |].
    apply Forall_app. split; [done |]. apply Forall_singleton.
    exists t0, m, typeRef, props. eauto 10.
Qed.

(** X1. A resolution step only adds: the declarations that were in the
    list stay where they are with new ones appended after them, the memo
    entries that were there stay with the same reference, and no directory
    is made and no file written. *)
Theorem resolution_only_appends
    (p : Program) (fuel : nat) (t : TypeId) (st st' : EmitterState) :
  finalState (getTypeReference p fuel t st) = Some st' ->
  (exists ds, typeDecls st' = typeDecls st ++ ds) /\
  (forall k ref, knownTypes st !! k = Some ref -> knownTypes st' !! k = Some ref) /\
  madeDirs st' = madeDirs st /\
  writtenFiles st' = writtenFiles st.
Proof.
  intros Hfin.
  pose proof (getTypeReference_step p fuel t st) as Hstep.
  unfold ends in Hstep. rewrite Hfin in Hstep.
  destruct Hstep as (_ & _ & Hext). exact Hext.
Qed.

(** X1 on the sample program: resolving [Owner] after [Pet]. *)
Lemma resolution_only_appends_witness :
  exists st1 st2,
    getTypeReference sampleProgram 4 2 createTsEmitter = Returned "Pet" st1 /\
    finalState (getTypeReference sampleProgram 4 4 st1) = Some st2 /\
    (exists ds, typeDecls st2 = typeDecls st1 ++ ds) /\
    knownTypes st2 !! 2 = Some "Pet".
Proof.
  eexists _, _. split; [vm_compute; reflexivity |].
  split; [vm_compute; reflexivity |].
  match goal with |- (exists ds, typeDecls ?s2 = typeDecls ?s1 ++ ds) /\ _ =>
    destruct (resolution_only_appends sampleProgram 4 4 s1 s2
                ltac:(vm_compute; reflexivity)) as (Hds & Hmemo & _)
  end.
  split; [exact Hds |]. apply Hmemo. vm_compute; reflexivity.
Defined.



Lemma mapM_cons {A B} (f : A -> Emit B) (x : A) (xs : list A) (st : EmitterState) :
  mapM f (x :: xs) st =
    match f x st with
    | Returned y st1 =>
      match mapM f xs st1 with
      | Returned ys st2 => Returned (y :: ys) st2
      | Thrown msg st2 => Thrown msg st2
      | Diverged => Diverged
      end
    | Thrown msg st1 => Thrown msg st1
    | Diverged => Diverged
    end.
Proof. reflexivity. Qed.

Lemma mapM_properties_resolvedInOrder (p : Program) (fuel : nat) :
  forall (props : list ModelTypeProperty) st refs st',
    resolvedInOrder p fuel (prop_type <$> props) st refs st' ->
    mapM (fun prop => let! r := getTypeReference p fuel (prop_type prop) in
                      ret (propText prop r)) props st
      = Returned (zip_with propText props refs) st'.
Proof.
  induction props as [| prop props IH]; intros st refs st' H; simpl in H;
    inversion H as [| t0 ts0 s0 ref s1 refs0 s2 Hrun Hrest]; subst.
  - reflexivity.
  - rewrite mapM_cons. cbv beta. unfold bind at 1. rewrite Hrun. unfold ret at 1.
    by rewrite (IH _ _ _ Hrest).
Qed.

(** X3. The first visit of a composite Model: when its property types
    resolve one after another to [refs], ending in [st1], and its name
    synthesizes to [typeRef], the call returns [typeRef], appends after
    everything its properties appended the interface whose body joins
    [name: ref] (or [name?: ref] for an optional property) with commas in
    property order, and records [typeRef] as the memo entry of the
    Model. *)
Theorem composite_model_is_declared_after_its_properties
    (p : Program) (fuel : nat) (t : TypeId) (m : ModelType)
    (st : EmitterState) (refs : list string) (st1 : EmitterState) (typeRef : string) :
  knownTypes st !! t = None ->
  typeAt p t = TModel m ->
  truthyName (getIntrinsicModelName p t) = None ->
  resolvedInOrder p fuel (prop_type <$> properties m) st refs st1 ->
  getModelDeclarationName p fuel m = Ok typeRef ->
  getTypeReference p (S fuel) t st
    = Returned typeRef
        {| typeDecls :=
             typeDecls st1 ++
             [ "interface " +:+ typeRef +:+ " {" +:+ newline +:+
               "      " +:+ join "," (zip_with propText (properties m) refs) +:+ newline +:+
               "    }" ];
           knownTypes := <[t := typeRef]> (knownTypes st1);
           madeDirs := madeDirs st1;
           writtenFiles := writtenFiles st1 |}.
Proof.
  intros Hmiss Hm Hi Hprops Hname.
  rewrite getTypeReference_miss by done.
  unfold switchOnKind. rewrite Hm. unfold generateModelType. rewrite Hi.
  unfold bind at 1. rewrite (mapM_properties_resolvedInOrder p fuel _ _ _ _ Hprops).
  unfold bind, liftO. rewrite Hname. reflexivity.
Qed.

(** X3 on the sample program: [Pet] in a fresh emitter. *)
Lemma composite_model_witness :
  exists st',
    getTypeReference sampleProgram 3 2 createTsEmitter = Returned "Pet" st' /\
    typeDecls st' = [interfaceDecl "Pet" ["name: string"; "tags?: string[]"]] /\
    knownTypes st' !! 2 = Some "Pet".
Proof.
  eexists. split.
  - apply (composite_model_is_declared_after_its_properties sampleProgram 2 2 petModel
             createTsEmitter ["string"; "string[]"] createTsEmitter "Pet").
    + reflexivity.
    + reflexivity.
    + reflexivity.
    + apply resolved_cons with (st1 := createTsEmitter); [reflexivity |].
      apply resolved_cons with (st1 := createTsEmitter); [reflexivity |].
      apply resolved_nil.
    + reflexivity.
  - split; reflexivity.
Defined.

(** X4. The reference of an Array is the reference of its element
    followed by [[]]; the Array adds nothing of its own, and when the
    element's resolution throws, the Array's resolution throws the same
    in the same state. *)
Theorem array_reference_is_element_reference_with_brackets
    (p : Program) (fuel : nat) (t : TypeId) (a : ArrayType) (st : EmitterState) :
  memo_ok p st ->
  typeAt p t = TArray a ->
  getTypeReference p (S fuel) t st =
    match getTypeReference p fuel (elementType a) st with
    | Returned ref st' => Returned (ref +:+ "[]") st'
    | Thrown msg st' => Thrown msg st'
    | Diverged => Diverged
    end.
Proof.
  intros Hok Ht.
  rewrite getTypeReference_miss.
  - unfold switchOnKind. rewrite Ht. reflexivity.
  - apply (memo_miss p); [done |]. intros (m & Hm & _). congruence.
Qed.

(** X4 on the sample program: [string[]]. *)
Lemma array_reference_witness :
  getTypeReference sampleProgram 2 3 createTsEmitter = Returned "string[]" createTsEmitter.
Proof.
  apply (array_reference_is_element_reference_with_brackets sampleProgram 1 3
           {| elementType := 0 |} createTsEmitter).
  - apply memo_ok_createTsEmitter.
  - reflexivity.
Defined.

(** X5. A Number literal resolves to the text of its value and leaves
    the state as it was. *)
Theorem number_literal_resolves_to_its_text
    (p : Program) (fuel : nat) (t : TypeId) (value : string) (st : EmitterState) :
  memo_ok p st ->
  typeAt p t = TNumber value ->
  getTypeReference p (S fuel) t st = Returned value st.
Proof.
  intros Hok Ht.
  rewrite getTypeReference_miss.
  - unfold switchOnKind. by rewrite Ht.
  - apply (memo_miss p); [done |]. intros (m & Hm & _). congruence.
Qed.

(** X5 on the sample program: the literal 42. *)
Lemma number_literal_witness :
  getTypeReference sampleProgram 1 14 createTsEmitter = Returned "42" createTsEmitter.
Proof.
  apply (number_literal_resolves_to_its_text sampleProgram 0 14 "42" createTsEmitter).
  - apply memo_ok_createTsEmitter.
  - reflexivity.
Defined.

(** ** Errors *)

Section Errors.

Variable p : Program.

Lemma mapM_thrown {A B} (P : string -> Prop) (f : A -> Emit B) :
  (forall x st msg st', f x st = Thrown msg st' -> P msg) ->
  forall xs st msg st', mapM f xs st = Thrown msg st' -> P msg.
Proof.
  intros Hf. induction xs as [| x xs IH]; intros st msg st'; [done |].
  rewrite mapM_cons.
  destruct (f x st) as [y st1 | msg1 st1 |] eqn:Hx; [| | done].
  - destruct (mapM f xs st1) as [ys st2 | msg2 st2 |] eqn:Hxs; [done | | done].
    intros [= <- _]. by apply (IH st1 msg2 st2).
  - intros [= <- _]. by apply (Hf x st msg1 st1).
Qed.

Lemma getTypeReference_thrown fuel :
  forall t st msg st',
    getTypeReference p fuel t st = Thrown msg st' -> emitterError msg.
Proof.
  induction fuel as [| fuel IH]; intros t st msg st'; simpl; [done |].
  destruct (knownTypes st !! t); [done |].
  unfold switchOnKind.
  destruct (typeAt p t) as [m | a | opts | v | k]; try done.
  - unfold generateModelType.
    destruct (truthyName (getIntrinsicModelName p t)) as [iname |] eqn:Hintr.
    { destruct (instrinsicNameToTSType !! iname) eqn:Htab; [done |].
      intros [= <- _]. left. exists iname. repeat split; [| done].
      intros ->. by destruct (getIntrinsicModelName p t) as [[|] |]. }
    unfold bind at 1.
    match goal with |- context [mapM ?f ?xs st] =>
      destruct (mapM f xs st) as [props st1 | msg1 st1 |] eqn:Hprops end; [| | done].
    + unfold bind, liftO.
      destruct (getModelDeclarationName p fuel m) as [typeRef | msg1 |] eqn:Hname; [done | | done].
      intros [= <- _]. right. by apply (getModelDeclarationName_throw p fuel m).
    + intros [= <- _]. revert Hprops. apply mapM_thrown.
      intros x s msg2 s'. unfold bind.
      destruct (getTypeReference p fuel (prop_type x) s) as [r s2 | msg3 s2 |] eqn:Hx;
        [done | | done].
      intros [= <- _]. by apply (IH _ _ _ _ Hx).
  - unfold generateArrayType, bind.
    destruct (getTypeReference p fuel (elementType a) st) as [r s2 | msg3 s2 |] eqn:Hx;
      [done | | done].
    intros [= <- _]. by apply (IH _ _ _ _ Hx).
  - unfold bind.
    destruct (mapM (getTypeReference p fuel) opts st) as [refs st1 | msg1 st1 |] eqn:Hopts;
      [done | | done].
    intros [= <- _]. revert Hopts. by apply mapM_thrown.
Qed.

Lemma emitStoreInterface_thrown options path_join fuel model collectionName st msg st' :
  emitStoreInterface p options path_join fuel model collectionName st = Thrown msg st' ->
  emitterError msg.
Proof.
  unfold emitStoreInterface.
  match goal with |- context [getTypeReference p fuel model ?s] =>
    destruct (getTypeReference p fuel model s) as [r s2 | msg2 s2 |] eqn:Hrun end;
    [done | | done].
  intros [= <- _]. by apply (getTypeReference_thrown _ _ _ _ _ Hrun).
Qed.

End Errors.

(** X6. The exceptions the emitter throws itself carry two messages
    only: whenever a resolution, or a pass of [emitStoreInterface], ends
    by a throw of the emitter ([Thrown]; the engine's error for a
    recursion without end is the non-return of this development), the
    message is [Unknown intrinsic type] followed by a non-empty intrinsic
    name that the table does not have, or it is the message of name
    synthesis. *)
Theorem emitter_throws_only_its_two_errors
    (p : Program) (options : DataStoreEmitterOptions)
    (path_join : string -> string -> string) (fuel : nat) :
  (forall t st msg st',
     getTypeReference p fuel t st = Thrown msg st' -> emitterError msg) /\
  (forall model collectionName st msg st',
     emitStoreInterface p options path_join fuel model collectionName st = Thrown msg st' ->
     emitterError msg).
Proof.
  split.
  - apply getTypeReference_thrown.
  - intros model collectionName st msg st'. apply emitStoreInterface_thrown.
Qed.

(** X6 on the sample program: [Page<42>] cannot be named. *)
Lemma emitter_errors_witness :
  exists st',
    getTypeReference sampleProgram 3 16 createTsEmitter = Thrown templateNameMessage st' /\
    emitterError templateNameMessage.
Proof.
  eexists. split; [vm_compute; reflexivity |].
  eapply (proj1 (emitter_throws_only_its_two_errors sampleProgram sampleOptions
                   samplePathJoin 3) 16 createTsEmitter).
  vm_compute; reflexivity.
Defined.

(** ** The depth bound *)

Lemma omap_settled {A B} (f g : A -> Outcome B) (xs : list A) :
  (forall x, f x <> OutOfFuel -> g x = f x) ->
  omap f xs <> OutOfFuel -> omap g xs = omap f xs.
Proof.
  intros H. induction xs as [| x xs IH]; simpl; [done |].
  destruct (f x) as [y | msg |] eqn:Hx; simpl.
  - rewrite (H x) by congruence. rewrite Hx. simpl.
    destruct (omap f xs) as [ys | msg |] eqn:Hxs; simpl.
    + intros _. rewrite IH by done. done.
    + intros _. rewrite IH by done. done.
    + done.
  - intros _. rewrite (H x) by congruence. by rewrite Hx.
  - done.
Qed.

Lemma mapM_settled {A B} (f g : A -> Emit B) (xs : list A) :
  (forall x st, f x st <> Diverged -> g x st = f x st) ->
  forall st, mapM f xs st <> Diverged -> mapM g xs st = mapM f xs st.
Proof.
  intros H. induction xs as [| x xs IH]; intros st; [done |].
  rewrite !mapM_cons.
  destruct (f x st) as [y st1 | msg st1 |] eqn:Hx.
  - rewrite (H x st) by congruence. rewrite Hx.
    destruct (mapM f xs st1) as [ys st2 | msg st2 |] eqn:Hxs.
    + intros _. rewrite IH by congruence. by rewrite Hxs.
    + intros _. rewrite IH by congruence. by rewrite Hxs.
    + done.
  - intros _. rewrite (H x st) by congruence. by rewrite Hx.
  - done.
Qed.

Section DepthBound.

Variable p : Program.

Lemma getModelDeclarationName_deeper fuel :
  forall type,
    getModelDeclarationName p fuel type <> OutOfFuel ->
    getModelDeclarationName p (S fuel) type = getModelDeclarationName p fuel type.
Proof.
  induction fuel as [| fuel IH]; intros type; [done |].
  change (getModelDeclarationName p (S (S fuel)) type) with
    (match templateArguments type with
     | None => Ok (name type)
     | Some [] => Ok (name type)
     | Some args =>
       obind (omap (templateArgumentName p (getModelDeclarationName p (S fuel))) args)
             (fun parameterNames => Ok (name type +:+ join EmptyString parameterNames))
     end).
  change (getModelDeclarationName p (S fuel) type) with
    (match templateArguments type with
     | None => Ok (name type)
     | Some [] => Ok (name type)
     | Some args =>
       obind (omap (templateArgumentName p (getModelDeclarationName p fuel)) args)
             (fun parameterNames => Ok (name type +:+ join EmptyString parameterNames))
     end).
  destruct (templateArguments type) as [[| a args] |]; try done.
  intros Hset.
  rewrite (omap_settled (templateArgumentName p (getModelDeclarationName p fuel))
             (templateArgumentName p (getModelDeclarationName p (S fuel)))); [done | |].
  - intros t. unfold templateArgumentName.
    destruct (typeAt p t) as [m | arr | | |]; try done.
    + intros H. by apply IH.
    + destruct (typeAt p (elementType arr)) as [em | | | |]; try done.
      intros H. rewrite IH; [done |]. intros E. by rewrite E in H.
  - intros E. by rewrite E in Hset.
Qed.

Lemma getModelDeclarationName_any_deeper fuel fuel' type :
  fuel <= fuel' ->
  getModelDeclarationName p fuel type <> OutOfFuel ->
  getModelDeclarationName p fuel' type = getModelDeclarationName p fuel type.
Proof.
  induction 1 as [| fuel' _ IH]; [done |].
  intros H. rewrite getModelDeclarationName_deeper; [by apply IH |].
  by rewrite IH.
Qed.

(** Name synthesis gives one name, whatever depth it is allowed. *)
Lemma getModelDeclarationName_one_name fuel1 fuel2 type n1 n2 :
  getModelDeclarationName p fuel1 type = Ok n1 ->
  getModelDeclarationName p fuel2 type = Ok n2 ->
  n1 = n2.
Proof.
  intros H1 H2.
  assert (E1 := getModelDeclarationName_any_deeper fuel1 (fuel1 `max` fuel2) type
                  ltac:(lia) ltac:(by rewrite H1)).
  assert (E2 := getModelDeclarationName_any_deeper fuel2 (fuel1 `max` fuel2) type
                  ltac:(lia) ltac:(by rewrite H2)).
  congruence.
Qed.

Lemma generateModelType_composite fuel rec t m st :
  truthyName (getIntrinsicModelName p t) = None ->
  generateModelType p fuel rec t m st =
    match mapM (resolveProperty rec) (properties m) st with
    | Returned props st1 =>
      match getModelDeclarationName p fuel m with
      | Ok typeRef => Returned typeRef (declared st1 t typeRef props)
      | Throw msg => Thrown msg st1
      | OutOfFuel => Diverged
      end
    | Thrown msg st1 => Thrown msg st1
    | Diverged => Diverged
    end.
Proof.
  intros H. unfold generateModelType. rewrite H. unfold bind at 1.
  change (mapM _ (properties m) st)
    with (mapM (resolveProperty rec) (properties m) st).
  destruct (mapM (resolveProperty rec) (properties m) st); [| done ..].
  unfold bind, liftO. by destruct (getModelDeclarationName p fuel m).
Qed.

Lemma resolveProperty_deeper fuel :
  (forall t st,
     getTypeReference p fuel t st <> Diverged ->
     getTypeReference p (S fuel) t st = getTypeReference p fuel t st) ->
  forall x st,
    resolveProperty (getTypeReference p fuel) x st <> Diverged ->
    resolveProperty (getTypeReference p (S fuel)) x st
      = resolveProperty (getTypeReference p fuel) x st.
Proof.
  intros IH x st. unfold resolveProperty, bind.
  destruct (getTypeReference p fuel (prop_type x) st) eqn:Hx; try done;
    intros _; rewrite IH by congruence; by rewrite Hx.
Qed.

Lemma getTypeReference_deeper fuel :
  forall t st,
    getTypeReference p fuel t st <> Diverged ->
    getTypeReference p (S fuel) t st = getTypeReference p fuel t st.
Proof.
  induction fuel as [| fuel IH]; intros t st; [done |].
  destruct (knownTypes st !! t) as [ref |] eqn:Hmemo.
  { intros _. by rewrite !(getTypeReference_hit p _ t st ref). }
  rewrite !getTypeReference_miss by done.
  unfold switchOnKind.
  destruct (typeAt p t) as [m | a | opts | v | k]; try done.
  - destruct (truthyName (getIntrinsicModelName p t)) as [iname |] eqn:Hintr.
    { unfold generateModelType. by rewrite Hintr. }
    rewrite !generateModelType_composite by done.
    destruct (mapM (resolveProperty (getTypeReference p fuel)) (properties m) st)
      as [props st1 | msg st1 |] eqn:Hprops; [| | done].
    + intros Hset.
      rewrite (mapM_settled _ _ _ (resolveProperty_deeper fuel IH)) by (by rewrite Hprops).
      rewrite Hprops.
      rewrite getModelDeclarationName_deeper; [done |].
      intros E. by rewrite E in Hset.
    + intros _.
      rewrite (mapM_settled _ _ _ (resolveProperty_deeper fuel IH)) by (by rewrite Hprops).
      by rewrite Hprops.
  - unfold generateArrayType, bind.
    destruct (getTypeReference p fuel (elementType a) st) eqn:Hx; try done;
      intros _; rewrite IH by congruence; by rewrite Hx.
  - unfold bind.
    destruct (mapM (getTypeReference p fuel) opts st) eqn:Hopts; try done;
      intros _;
      (rewrite (mapM_settled (getTypeReference p fuel) (getTypeReference p (S fuel)));
        [by rewrite Hopts | apply IH | by rewrite Hopts]).
Qed.

End DepthBound.

(** X7. The depth bound does not shape results: a call that returns or
    throws within some depth does exactly the same, with the same final
    state, at any larger depth. *)
Theorem result_does_not_depend_on_depth
    (p : Program) (fuel fuel' : nat) (t : TypeId) (st : EmitterState) :
  fuel <= fuel' ->
  getTypeReference p fuel t st <> Diverged ->
  getTypeReference p fuel' t st = getTypeReference p fuel t st.
Proof.
  induction 1 as [| fuel' _ IH]; [done |].
  intros H. rewrite getTypeReference_deeper; [by apply IH |].
  by rewrite IH.
Qed.

(** X7 on the sample program: [Owner] at depth 4 and at depth 9. *)
Lemma result_depth_witness :
  getTypeReference sampleProgram 9 4 createTsEmitter
    = getTypeReference sampleProgram 4 4 createTsEmitter.
Proof.
  apply (result_does_not_depend_on_depth sampleProgram 4 9 4 createTsEmitter).
  - lia.
  - vm_compute. discriminate.
Defined.

(** X8. The reference returned for a composite Model is the name that
    name synthesis gives it, the only one whatever the depth, and when the
    call returns the Model is in the memo table under that reference. *)
Theorem composite_reference_is_declaration_name
    (p : Program) (fuel : nat) (t : TypeId) (m : ModelType)
    (st : EmitterState) (ref : string) (st' : EmitterState) :
  memo_ok p st ->
  typeAt p t = TModel m ->
  truthyName (getIntrinsicModelName p t) = None ->
  getTypeReference p fuel t st = Returned ref st' ->
  knownTypes st' !! t = Some ref /\
  forall fuel' n, getModelDeclarationName p fuel' m = Ok n -> n = ref.
Proof.
  intros Hok Hm Hi Hrun.
  assert (Hmemo' : knownTypes st' !! t = Some ref).
  { destruct fuel as [| fuel]; [done |].
    destruct (knownTypes st !! t) as [r |] eqn:Hmemo.
    - rewrite (getTypeReference_hit p fuel t st r Hmemo) in Hrun.
      by injection Hrun as <- <-.
    - rewrite getTypeReference_miss in Hrun by done.
      unfold switchOnKind in Hrun. rewrite Hm in Hrun.
      rewrite generateModelType_composite in Hrun by done.
      destruct (mapM _ (properties m) st) as [props st1 | |]; [| done ..].
      destruct (getModelDeclarationName p fuel m) as [typeRef | |]; [| done ..].
      injection Hrun as <- <-. simpl. apply lookup_insert_eq. }
  split; [done |].
  pose proof (getTypeReference_step p fuel t st) as Hstep.
  rewrite Hrun in Hstep. destruct Hstep as (Hok' & _ & _).
  destruct (Hok' Hok t ref Hmemo') as (m' & Hm' & _ & f & Hf).
  assert (m' = m) as -> by congruence.
  intros fuel' n Hn. by apply (getModelDeclarationName_one_name p fuel' f m).
Qed.

(** X8 on the sample program: [Page<User[]>]. *)
Lemma composite_reference_witness :
  exists st',
    getTypeReference sampleProgram 4 12 createTsEmitter = Returned "PageUserArray" st' /\
    knownTypes st' !! 12 = Some "PageUserArray".
Proof.
  eexists. split; [vm_compute; reflexivity |].
  refine (proj1 (composite_reference_is_declaration_name sampleProgram 4 12 pageOfUserArray
                   createTsEmitter "PageUserArray" _ _ _ _ _)).
  - apply memo_ok_createTsEmitter.
  - reflexivity.
  - reflexivity.
  - vm_compute; reflexivity.
Defined.

(** ** Cycles *)

Section Cycles.

Variable p : Program.

(** A set of types each of which refers to a member of the set. *)
Variable cycle : TypeId -> Prop.
Hypothesis cycle_closed : forall x, cycle x -> exists y, refersTo p x y /\ cycle y.

Lemma mapM_outside {A B} (f : A -> Emit B) (target : A -> TypeId) :
  (forall x st y st',
     (forall c, cycle c -> knownTypes st !! c = None) ->
     f x st = Returned y st' ->
     ~ cycle (target x) /\ (forall c, cycle c -> knownTypes st' !! c = None)) ->
  forall xs st ys st',
    (forall c, cycle c -> knownTypes st !! c = None) ->
    mapM f xs st = Returned ys st' ->
    (forall c, cycle c -> knownTypes st' !! c = None) /\
    forall x, x ∈ xs -> ~ cycle (target x).
Proof.
  intros Hf. induction xs as [| x xs IH]; intros st ys st' Hmiss.
  - intros [= <- <-]. split; [done |]. intros x Hx. by apply elem_of_nil in Hx.
  - rewrite mapM_cons.
    destruct (f x st) as [y st1 | |] eqn:Hx; [| done ..].
    destruct (Hf _ _ _ _ Hmiss Hx) as [Hout Hmiss1].
    destruct (mapM f xs st1) as [ys' st2 | |] eqn:Hxs; [| done ..].
    intros [= <- <-].
    destruct (IH st1 ys' st2 Hmiss1 Hxs) as [Hmiss2 Hall].
    split; [done |]. intros z [-> | Hz]%elem_of_cons; auto.
Qed.

(** While no member of the cycle is in the memo table, a call that
    returns was not a call on a member and leaves all of them out of the
    table. *)
Lemma getTypeReference_outside fuel :
  forall t st ref st',
    (forall c, cycle c -> knownTypes st !! c = None) ->
    getTypeReference p fuel t st = Returned ref st' ->
    ~ cycle t /\ (forall c, cycle c -> knownTypes st' !! c = None).
Proof.
  induction fuel as [| fuel IH]; intros t st ref st' Hmiss; [done |].
  destruct (knownTypes st !! t) as [r |] eqn:Hmemo.
  { rewrite (getTypeReference_hit p fuel t st r Hmemo). intros [= <- <-].
    split; [| done]. intros Hc. rewrite (Hmiss t Hc) in Hmemo. done. }
  rewrite getTypeReference_miss by done. unfold switchOnKind.
  destruct (typeAt p t) as [m | a | opts | v | k] eqn:Hnode.
  - destruct (truthyName (getIntrinsicModelName p t)) as [iname |] eqn:Hintr.
    { unfold generateModelType. rewrite Hintr.
      destruct (instrinsicNameToTSType !! iname); [| done].
      intros [= <- <-]. split; [| done]. intros Hc.
      destruct (cycle_closed t Hc) as (y & Hy & _). unfold refersTo in Hy.
      rewrite Hnode in Hy. destruct Hy as [Hy _]. congruence. }
    rewrite generateModelType_composite by done.
    destruct (mapM _ (properties m) st) as [props st1 | |] eqn:Hprops; [| done ..].
    assert (Hf : forall x s0 y s1,
              (forall c, cycle c -> knownTypes s0 !! c = None) ->
              resolveProperty (getTypeReference p fuel) x s0 = Returned y s1 ->
              ~ cycle (prop_type x) /\ (forall c, cycle c -> knownTypes s1 !! c = None)).
    { intros x s0 y s1 Hs0. unfold resolveProperty, bind.
      destruct (getTypeReference p fuel (prop_type x) s0) as [r s2 | |] eqn:Hx; [| done ..].
      intros [= <- <-]. exact (IH _ _ _ _ Hs0 Hx). }
    destruct (mapM_outside _ prop_type Hf _ _ _ _ Hmiss Hprops) as [Hmiss1 Hall].
    assert (Hout : ~ cycle t).
    { intros Hc. destruct (cycle_closed t Hc) as (y & Hy & Hcy). unfold refersTo in Hy.
      rewrite Hnode in Hy. destruct Hy as (_ & prop & Hin & <-).
      by apply (Hall prop Hin). }
    destruct (getModelDeclarationName p fuel m); [| done ..].
    intros [= <- <-]. split; [done |]. intros c Hc. simpl.
    rewrite lookup_insert_ne; [by apply Hmiss1 |]. intros <-. done.
  - unfold generateArrayType, bind.
    destruct (getTypeReference p fuel (elementType a) st) as [r st1 | |] eqn:Hel; [| done ..].
    intros [= <- <-]. destruct (IH _ _ _ _ Hmiss Hel) as [Hout Hmiss1].
    split; [| done]. intros Hc.
    destruct (cycle_closed t Hc) as (y & Hy & Hcy). unfold refersTo in Hy.
    rewrite Hnode in Hy. by subst y.
  - unfold bind.
    destruct (mapM (getTypeReference p fuel) opts st) as [refs st1 | |] eqn:Hopts; [| done ..].
    intros [= <- <-].
    destruct (mapM_outside _ id IH _ _ _ _ Hmiss Hopts) as [Hmiss1 Hall].
    split; [| done]. intros Hc.
    destruct (cycle_closed t Hc) as (y & Hy & Hcy). unfold refersTo in Hy.
    rewrite Hnode in Hy. by apply (Hall y Hy).
  - intros [= <- <-]. split; [| done]. intros Hc.
    destruct (cycle_closed t Hc) as (y & Hy & _). unfold refersTo in Hy.
    by rewrite Hnode in Hy.
  - intros [= <- <-]. split; [| done]. intros Hc.
    destruct (cycle_closed t Hc) as (y & Hy & _). unfold refersTo in Hy.
    by rewrite Hnode in Hy.
Qed.

End Cycles.

(** X9. Resolving a type that lies on a cycle of references, through
    properties of composite Models, Array elements and Union options,
    never returns while no type of the cycle is in the memo table,
    whatever the depth: the memo entry of a Model is written only after
    its properties are resolved. *)
Theorem reference_cycle_never_returns
    (p : Program) (cycle : TypeId -> Prop) (fuel : nat) (t : TypeId)
    (st : EmitterState) (ref : string) (st' : EmitterState) :
  (forall x, cycle x -> exists y, refersTo p x y /\ cycle y) ->
  (forall c, cycle c -> knownTypes st !! c = None) ->
  cycle t ->
  getTypeReference p fuel t st <> Returned ref st'.
Proof.
  intros Hclosed Hmiss Ht Hrun.
  by destruct (getTypeReference_outside p cycle Hclosed fuel t st ref st' Hmiss Hrun).
Qed.

(** X9 on the second sample program: [Author] refers to [Book[]], which
    refers to [Book], which refers to [Author | string], which refers to
    [Author]. *)
Lemma reference_cycle_witness :
  ~ exists ref st', getTypeReference secondProgram 50 0 createTsEmitter = Returned ref st'.
Proof.
  intros (ref & st' & Hrun). revert Hrun.
  apply (reference_cycle_never_returns secondProgram (fun x => x ∈ [0; 1; 2; 3])).
  - intros x Hx. unfold refersTo.
    repeat (apply elem_of_cons in Hx as [-> | Hx]); [| | | | by apply elem_of_nil in Hx]; simpl.
    + exists 1. split; [split; [done |] |].
      * exists (mkProp "books" false 1). split; [apply list_elem_of_here | done].
      * repeat first [apply list_elem_of_here | apply list_elem_of_further].
    + exists 2. split; [done |].
      repeat first [apply list_elem_of_here | apply list_elem_of_further].
    + exists 3. split; [split; [done |] |].
      * exists (mkProp "by" false 3). split; [apply list_elem_of_here | done].
      * repeat first [apply list_elem_of_here | apply list_elem_of_further].
    + exists 0. split; apply list_elem_of_here.
  - intros c _. apply lookup_empty.
  - apply list_elem_of_here.
Defined.

(** ** Termination on graphs without cycles *)

Lemma omap_settles {A B} (f : A -> Outcome B) (xs : list A) :
  (forall x, x ∈ xs -> f x <> OutOfFuel) -> omap f xs <> OutOfFuel.
Proof.
  induction xs as [| x xs IH]; intros H; simpl; [done |].
  pose proof (H x (list_elem_of_here x xs)) as Hx.
  destruct (f x) as [y | msg |]; simpl; [| done | done].
  assert (Hxs : omap f xs <> OutOfFuel).
  { apply IH. intros z Hz. apply H. by apply list_elem_of_further. }
  by destruct (omap f xs).
Qed.

Lemma mapM_settles {A B} (f : A -> Emit B) (xs : list A) :
  (forall x, x ∈ xs -> forall st, f x st <> Diverged) ->
  forall st, mapM f xs st <> Diverged.
Proof.
  induction xs as [| x xs IH]; intros H st; [done |].
  rewrite mapM_cons.
  pose proof (H x (list_elem_of_here x xs) st) as Hx.
  destruct (f x st) as [y st1 | msg st1 |]; [| done | done].
  assert (Hxs : mapM f xs st1 <> Diverged).
  { apply IH. intros z Hz. apply H. by apply list_elem_of_further. }
  by destruct (mapM f xs st1).
Qed.

Section Ranked.

Variable p : Program.
Variable scope : TypeId -> Prop.
Variable rk : TypeId -> nat.
Hypothesis scope_ranked : forall t, scope t -> ranked p scope rk t.

Lemma getModelDeclarationName_settles fuel :
  forall t m,
    scope t -> typeAt p t = TModel m -> rk t < fuel ->
    getModelDeclarationName p fuel m <> OutOfFuel.
Proof.
  induction fuel as [| fuel IH]; intros t m Hs Hm Hrk; [lia |].
  simpl. destruct (templateArguments m) as [[| a args] |] eqn:Hargs; try done.
  assert (Hset : omap (templateArgumentName p (getModelDeclarationName p fuel)) (a :: args)
                 <> OutOfFuel).
  { apply omap_settles. intros x Hx.
    pose proof (scope_ranked t Hs) as Hr. unfold ranked in Hr. rewrite Hm in Hr.
    destruct Hr as [_ Hr]. destruct (Hr _ x Hargs Hx) as [Hsx Hrx].
    unfold templateArgumentName.
    destruct (typeAt p x) as [mx | arr | | |] eqn:Hnx; try done.
    - apply (IH x mx); [done | done | lia].
    - pose proof (scope_ranked x Hsx) as Hra. unfold ranked in Hra. rewrite Hnx in Hra.
      destruct Hra as [Hse Hre].
      destruct (typeAt p (elementType arr)) as [em | | | |] eqn:Hne; try done.
      assert (He : getModelDeclarationName p fuel em <> OutOfFuel).
      { apply (IH (elementType arr) em); [done | done | lia]. }
      by destruct (getModelDeclarationName p fuel em). }
  by destruct (omap _ (a :: args)).
Qed.

Lemma getTypeReference_settles fuel :
  forall t st,
    scope t -> rk t + 2 <= fuel ->
    getTypeReference p fuel t st <> Diverged.
Proof.
  induction fuel as [| fuel IH]; intros t st Hs Hrk; [lia |].
  destruct (knownTypes st !! t) as [ref |] eqn:Hmemo.
  { by rewrite (getTypeReference_hit p fuel t st ref Hmemo). }
  rewrite getTypeReference_miss by done. unfold switchOnKind.
  pose proof (scope_ranked t Hs) as Hr. unfold ranked in Hr.
  destruct (typeAt p t) as [m | a | opts | v | k] eqn:Hnode; try done.
  - destruct (truthyName (getIntrinsicModelName p t)) as [iname |] eqn:Hintr.
    { unfold generateModelType. rewrite Hintr.
      by destruct (instrinsicNameToTSType !! iname). }
    rewrite generateModelType_composite by done.
    destruct Hr as [Hprops _].
    assert (Hset : mapM (resolveProperty (getTypeReference p fuel)) (properties m) st
                   <> Diverged).
    { apply mapM_settles. intros x Hx s.
      destruct (Hprops x Hx) as [Hsx Hrx].
      unfold resolveProperty, bind.
      assert (Hc : getTypeReference p fuel (prop_type x) s <> Diverged)
        by (apply IH; [done | lia]).
      by destruct (getTypeReference p fuel (prop_type x) s). }
    destruct (mapM _ (properties m) st) as [props st1 | |]; [| done ..].
    assert (Hname : getModelDeclarationName p fuel m <> OutOfFuel)
      by (apply (getModelDeclarationName_settles fuel t m); [done | done | lia]).
    by destruct (getModelDeclarationName p fuel m).
  - destruct Hr as [Hse Hre]. unfold generateArrayType, bind.
    assert (Hc : getTypeReference p fuel (elementType a) st <> Diverged)
      by (apply IH; [done | lia]).
    by destruct (getTypeReference p fuel (elementType a) st).
  - unfold bind.
    assert (Hset : mapM (getTypeReference p fuel) opts st <> Diverged).
    { apply mapM_settles. intros x Hx s. destruct (Hr x Hx) as [Hsx Hrx].
      apply IH; [done | lia]. }
    by destruct (mapM (getTypeReference p fuel) opts st).
Qed.

Lemma emitLoop_settles options path_join fuel entries :
  (forall model, model ∈ entries.*1 -> scope model /\ rk model + 2 <= fuel) ->
  forall st, emitLoop p options path_join fuel entries st <> Diverged.
Proof.
  induction entries as [| [model c] entries IH]; intros H st; [done |].
  simpl. unfold bind.
  destruct (H model (list_elem_of_here _ _)) as [Hs Hrk].
  assert (Hone : emitStoreInterface p options path_join fuel model
                   (nullish c (JsString (modelName p model))) st <> Diverged).
  { unfold emitStoreInterface.
    match goal with |- context [getTypeReference p fuel model ?s] =>
      pose proof (getTypeReference_settles fuel model s Hs Hrk) as Hc;
      by destruct (getTypeReference p fuel model s) end. }
  destruct (emitStoreInterface p options path_join fuel model _ st); [| done ..].
  apply IH. intros z Hz. apply H. simpl. by apply list_elem_of_further.
Qed.

End Ranked.

(** X10. On a part of the graph without reference cycles the traversal
    ends: when every type of [scope] refers only to types of [scope] of
    smaller rank, resolving a type of [scope] returns or throws at any
    depth from its rank plus two, and so does [emit] when every
    registered root is in [scope] and the depth covers the roots. *)
Theorem resolution_ends_without_cycles
    (p : Program) (scope : TypeId -> Prop) (rk : TypeId -> nat)
    (options : DataStoreEmitterOptions) (path_join : string -> string -> string)
    (fuel : nat) (st : EmitterState) :
  (forall t, scope t -> ranked p scope rk t) ->
  (forall t, scope t -> rk t + 2 <= fuel ->
     getTypeReference p fuel t st <> Diverged) /\
  ((forall model, model ∈ (storeStateMap p).*1 -> scope model /\ rk model + 2 <= fuel) ->
   emit p options path_join fuel st <> Diverged).
Proof.
  intros Hranked. split.
  - intros t Hs Hrk. by apply (getTypeReference_settles p scope rk Hranked).
  - intros Hroots. unfold emit.
    by apply (emitLoop_settles p scope rk Hranked).
Qed.

(** X10 on the sample program: the part under [Owner] has ranks up to 3,
    so depth 5 is enough for [Owner]. *)
Lemma resolution_ends_witness :
  getTypeReference sampleProgram 5 4 createTsEmitter <> Diverged.
Proof.
  refine (proj1 (resolution_ends_without_cycles sampleProgram (fun t => t ∈ [0; 2; 3; 4])
                   ownerRank sampleOptions samplePathJoin 5 createTsEmitter _) 4 _ _).
  - intros t Ht. unfold ranked.
    repeat (apply elem_of_cons in Ht as [-> | Ht]); [| | | | by apply elem_of_nil in Ht]; simpl.
    + split; [intros prop Hp; by apply elem_of_nil in Hp | done].
    + split; [| done]. intros prop Hp.
      repeat (apply elem_of_cons in Hp as [-> | Hp]); [| | by apply elem_of_nil in Hp]; simpl.
      * split; [repeat first [apply list_elem_of_here | apply list_elem_of_further] | lia].
      * split; [repeat first [apply list_elem_of_here | apply list_elem_of_further] | lia].
    + split; [repeat first [apply list_elem_of_here | apply list_elem_of_further] | lia].
    + split; [| done]. intros prop Hp.
      repeat (apply elem_of_cons in Hp as [-> | Hp]); [| by apply elem_of_nil in Hp]; simpl.
      split; [repeat first [apply list_elem_of_here | apply list_elem_of_further] | lia].
  - repeat first [apply list_elem_of_here | apply list_elem_of_further].
  - simpl. lia.
Defined.

(** ** Artifacts *)

Lemma append_assoc (a b c : string) : (a +:+ b) +:+ c = a +:+ b +:+ c.
Proof.
  induction a as [| ch a IH]; [done |].
  change (String ch ((a +:+ b) +:+ c) = String ch (a +:+ b +:+ c)). by rewrite IH.
Qed.

(** The artifact text is the template followed by each declaration and a
    newline, in order. *)
Lemma artifactText_unfold (modelName : string) (decls : list string) :
  artifactText modelName decls
    = storeTemplate modelName +:+
      foldr (fun decl rest => decl +:+ newline +:+ rest) EmptyString decls.
Proof.
  unfold artifactText. generalize (storeTemplate modelName) as code.
  induction decls as [| d ds IH]; intros code; simpl.
  - by rewrite append_empty_r.
  - rewrite IH. by rewrite !append_assoc.
Qed.

Section Artifacts.

Variable p : Program.
Variable options : DataStoreEmitterOptions.
Variable path_join : string -> string -> string.

Lemma emitStoreInterface_returned fuel model collectionName st u st' :
  emitStoreInterface p options path_join fuel model collectionName st = Returned u st' ->
  writtenFiles st' =
    writtenFiles st ++
    [(path_join (outputDir options) (modelName p model +:+ ".ts"),
      artifactText (modelName p model) (typeDecls st'))] /\
  Forall (modelDeclaration p) (typeDecls st') /\
  madeDirs st' = madeDirs st /\
  (forall k ref, knownTypes st !! k = Some ref -> knownTypes st' !! k = Some ref).
Proof.
  unfold emitStoreInterface.
  match goal with |- context [getTypeReference p fuel model ?s] => set (s1 := s) end.
  destruct (getTypeReference p fuel model s1) as [r s2 | |] eqn:Hrun; [| done ..].
  intros [= _ <-]; simpl.
  pose proof (getTypeReference_step p fuel model s1) as Hstep.
  pose proof (getTypeReference_appends p fuel model s1) as Happ.
  rewrite Hrun in Hstep, Happ.
  destruct Hstep as (_ & _ & (_ & Hmemo & Hdirs & Hfiles)).
  destruct Happ as (ds & Hds & Hall).
  simpl in *. subst ds.
  split; [by rewrite Hfiles |]. split; [done |]. split; done.
Qed.

Lemma emitStoreInterface_thrown_state fuel model collectionName st msg st' :
  emitStoreInterface p options path_join fuel model collectionName st = Thrown msg st' ->
  writtenFiles st' = writtenFiles st /\ madeDirs st' = madeDirs st.
Proof.
  unfold emitStoreInterface.
  match goal with |- context [getTypeReference p fuel model ?s] => set (s1 := s) end.
  destruct (getTypeReference p fuel model s1) as [r s2 | msg2 s2 |] eqn:Hrun; [done | | done].
  intros [= _ <-].
  pose proof (getTypeReference_step p fuel model s1) as Hstep.
  rewrite Hrun in Hstep.
  by destruct Hstep as (_ & _ & (_ & _ & Hdirs & Hfiles)).
Qed.

(** The path of the artifact of a registration. *)
Lemma emitLoop_returned fuel entries :
  forall st u st',
    emitLoop p options path_join fuel entries st = Returned u st' ->
    madeDirs st' = madeDirs st /\
    (writtenFiles st').*1 =
      (writtenFiles st).*1 ++
      ((fun entry => path_join (outputDir options) (modelName p entry.1 +:+ ".ts"))
         <$> entries).
Proof.
  induction entries as [| [model c] entries IH]; intros st u st'; simpl.
  - intros [= _ <-]. split; [done |]. by rewrite app_nil_r.
  - unfold bind.
    destruct (emitStoreInterface p options path_join fuel model _ st)
      as [u1 st1 | |] eqn:Hone; [| done ..].
    intros Hrest.
    destruct (emitStoreInterface_returned _ _ _ _ _ _ Hone) as (Hfile & _ & Hdirs & _).
    destruct (IH _ _ _ Hrest) as (Hdirs' & Hfiles).
    split; [congruence |].
    rewrite Hfiles, Hfile, fmap_app, <- app_assoc. reflexivity.
Qed.

Lemma emitLoop_thrown_state fuel entries :
  forall st msg st',
    emitLoop p options path_join fuel entries st = Thrown msg st' ->
    exists before failed after stb,
      entries = before ++ failed :: after /\
      emitLoop p options path_join fuel before st = Returned tt stb /\
      emitStoreInterface p options path_join fuel failed.1
        (nullish failed.2 (JsString (modelName p failed.1))) stb = Thrown msg st'.
Proof.
  induction entries as [| [model c] entries IH]; intros st msg st'; simpl; [done |].
  unfold bind.
  destruct (emitStoreInterface p options path_join fuel model _ st)
    as [u1 st1 | msg1 st1 |] eqn:Hone; [| | done].
  - intros Hrest.
    destruct (IH _ _ _ Hrest) as (before & failed & after & stb & -> & Hbefore & Hfailed).
    exists ((model, c) :: before), failed, after, stb.
    split; [done |]. split; [| done].
    simpl. unfold bind. by rewrite Hone.
  - intros [= <- <-].
    exists [], (model, c), entries, st. repeat split; done.
Qed.

End Artifacts.

(** X11. What one pass writes. When [emitStoreInterface] returns, the
    resolution of the root, started with an empty declaration list and
    the memo table as it was, has returned; exactly one [writeFile] call
    was added after the earlier ones, at the root's name with [.ts] under
    the output directory, with the template for the root's name followed
    by the declarations this resolution collected, each ended by a
    newline; these are interfaces of composite Models.  When it throws,
    that resolution threw the same and no call was added.  It makes no
    directory. *)
Theorem store_artifact_is_template_then_declarations
    (p : Program) (options : DataStoreEmitterOptions)
    (path_join : string -> string -> string) (fuel : nat)
    (model : TypeId) (collectionName : JsValue) (st : EmitterState) :
  (forall u st',
     emitStoreInterface p options path_join fuel model collectionName st = Returned u st' ->
     exists ref st2,
       getTypeReference p fuel model (startPass st) = Returned ref st2 /\
       typeDecls st' = typeDecls st2 /\
       knownTypes st' = knownTypes st2 /\
       madeDirs st' = madeDirs st /\
       writtenFiles st' =
         writtenFiles st ++
         [(path_join (outputDir options) (modelName p model +:+ ".ts"),
           storeTemplate (modelName p model) +:+
           foldr (fun decl rest => decl +:+ newline +:+ rest) EmptyString (typeDecls st2))] /\
       Forall (modelDeclaration p) (typeDecls st2)) /\
  (forall msg st',
     emitStoreInterface p options path_join fuel model collectionName st = Thrown msg st' ->
     getTypeReference p fuel model (startPass st) = Thrown msg st' /\
     madeDirs st' = madeDirs st /\
     writtenFiles st' = writtenFiles st).
Proof.
  split.
  - intros u st' Hrun.
    destruct (emitStoreInterface_returned p options path_join _ _ _ _ _ _ Hrun)
      as (Hfile & Hall & Hdirs & _).
    unfold emitStoreInterface in Hrun. fold (startPass st) in Hrun.
    destruct (getTypeReference p fuel model (startPass st)) as [ref st2 | |]; [| done ..].
    injection Hrun as _ <-. simpl in *.
    exists ref, st2. repeat split; try done.
    by rewrite <- artifactText_unfold.
  - intros msg st' Hrun.
    destruct (emitStoreInterface_thrown_state p options path_join _ _ _ _ _ _ Hrun)
      as [Hfiles Hdirs].
    unfold emitStoreInterface in Hrun. fold (startPass st) in Hrun.
    destruct (getTypeReference p fuel model (startPass st)) as [ref st2 | |]; [done | | done].
    by injection Hrun as <- <-.
Qed.

(** X11 on the sample program: the artifacts of [Owner] and of the enum
    [Color]. *)
Lemma store_artifact_witness :
  (exists st',
     emitStoreInterface sampleProgram sampleOptions samplePathJoin 5 4 (JsBool false)
       createTsEmitter = Returned tt st' /\
     writtenFiles st' =
       [("out/store/Owner.ts",
         storeTemplate "Owner" +:+ petDecl +:+ newline +:+ ownerDecl +:+ newline)]) /\
  (exists st',
     emitStoreInterface sampleProgram sampleOptions samplePathJoin 5 13 (JsBool false)
       createTsEmitter = Returned tt st' /\
     writtenFiles st' = [("out/store/Color.ts", storeTemplate "Color")]).
Proof.
  split.
  - eexists. split; [vm_compute; reflexivity |].
    match goal with |- writtenFiles ?s = _ =>
      destruct (proj1 (store_artifact_is_template_then_declarations sampleProgram
                         sampleOptions samplePathJoin 5 4 (JsBool false) createTsEmitter)
                  tt s ltac:(vm_compute; reflexivity))
        as (ref & st2 & Hrun & _ & _ & _ & Hfiles & _)
    end.
    vm_compute in Hrun. injection Hrun as _ <-. exact Hfiles.
  - eexists. split; [vm_compute; reflexivity |].
    match goal with |- writtenFiles ?s = _ =>
      destruct (proj1 (store_artifact_is_template_then_declarations sampleProgram
                         sampleOptions samplePathJoin 5 13 (JsBool false) createTsEmitter)
                  tt s ltac:(vm_compute; reflexivity))
        as (ref & st2 & Hrun & _ & _ & _ & Hfiles & _)
    end.
    vm_compute in Hrun. injection Hrun as _ <-. exact Hfiles.
Defined.

(** X12. When [emit] returns, [mkdir] was called once, with the output
    directory, and [writeFile] once per registered root, in registration
    order, each at the root's name with [.ts] under the output
    directory. *)
Theorem emit_calls_writeFile_once_per_store
    (p : Program) (options : DataStoreEmitterOptions)
    (path_join : string -> string -> string)
    (fuel : nat) (st : EmitterState) (u : unit) (st' : EmitterState) :
  emit p options path_join fuel st = Returned u st' ->
  madeDirs st' = madeDirs st ++ [outputDir options] /\
  (writtenFiles st').*1 =
    (writtenFiles st).*1 ++
    ((fun entry => path_join (outputDir options) (modelName p entry.1 +:+ ".ts"))
       <$> storeStateMap p).
Proof.
  unfold emit. intros Hrun.
  destruct (emitLoop_returned _ _ _ _ _ _ _ _ Hrun) as (Hdirs & Hfiles).
  simpl in *. by split.
Qed.

(** X12 on the sample program: two roots, two calls. *)
Lemma emit_writeFile_witness :
  exists st',
    emit sampleProgram sampleOptions samplePathJoin 5 createTsEmitter = Returned tt st' /\
    madeDirs st' = ["out/store"] /\
    (writtenFiles st').*1 = ["out/store/Owner.ts"; "out/store/Shelter.ts"].
Proof.
  eexists. split; [vm_compute; reflexivity |].
  match goal with |- madeDirs ?s = _ /\ _ =>
    destruct (emit_calls_writeFile_once_per_store sampleProgram sampleOptions samplePathJoin
                5 createTsEmitter tt s ltac:(vm_compute; reflexivity)) as [Hdirs Hfiles]
  end.
  split; [exact Hdirs | exact Hfiles].
Defined.

(** X13. When a pass throws one of the emitter's own errors, the loop of
    [emit] stops there: the registrations split into those before the
    failing one, whose passes all returned, the failing one, whose pass
    threw the error [emit] ends with, and the rest, which are not
    visited; [writeFile] was called for the roots before the failing one,
    in order, and for no other. *)
Theorem emit_stops_at_first_failing_store
    (p : Program) (options : DataStoreEmitterOptions)
    (path_join : string -> string -> string)
    (fuel : nat) (st : EmitterState) (msg : string) (st' : EmitterState) :
  emit p options path_join fuel st = Thrown msg st' ->
  madeDirs st' = madeDirs st ++ [outputDir options] /\
  exists before failed after stb,
    storeStateMap p = before ++ failed :: after /\
    emitLoop p options path_join fuel before
      {| typeDecls := typeDecls st;
         knownTypes := knownTypes st;
         madeDirs := madeDirs st ++ [outputDir options];
         writtenFiles := writtenFiles st |} = Returned tt stb /\
    emitStoreInterface p options path_join fuel failed.1
      (nullish failed.2 (JsString (modelName p failed.1))) stb = Thrown msg st' /\
    (writtenFiles st').*1 =
      (writtenFiles st).*1 ++
      ((fun entry => path_join (outputDir options) (modelName p entry.1 +:+ ".ts"))
         <$> before).
Proof.
  unfold emit. intros Hrun.
  destruct (emitLoop_thrown_state _ _ _ _ _ _ _ _ Hrun)
    as (before & failed & after & stb & Hentries & Hbefore & Hfailed).
  destruct (emitLoop_returned _ _ _ _ _ _ _ _ Hbefore) as (Hdirs & Hfiles).
  destruct (emitStoreInterface_thrown_state _ _ _ _ _ _ _ _ _ Hfailed) as (Hfiles' & Hdirs').
  simpl in *. split; [congruence |].
  exists before, failed, after, stb. repeat split; try done.
  by rewrite Hfiles', Hfiles.
Qed.

(** X13 on the sample program with [Page<42>] registered second of
    three: only the first call is made. *)
Lemma emit_failure_witness :
  exists st',
    emit failingProgram sampleOptions samplePathJoin 5 createTsEmitter
      = Thrown templateNameMessage st' /\
    madeDirs st' = ["out/store"] /\
    exists before failed after,
      storeStateMap failingProgram = before ++ failed :: after /\
      (writtenFiles st').*1 =
        (fun entry => "out/store/" +:+ modelName failingProgram entry.1 +:+ ".ts")
          <$> before.
Proof.
  eexists. split; [vm_compute; reflexivity |].
  match goal with |- madeDirs ?s = _ /\ _ =>
    destruct (emit_stops_at_first_failing_store failingProgram sampleOptions samplePathJoin 5
                createTsEmitter templateNameMessage s ltac:(vm_compute; reflexivity))
      as (Hdirs & before & failed & after & stb & Hentries & _ & _ & Hfiles)
  end.
  split; [exact Hdirs |].
  exists before, failed, after. split; [exact Hentries | exact Hfiles].
Defined.

(** X14. A root that is already in the memo table when its pass starts
    gets the bare template: the pass returns at once, declares nothing
    and changes no memo entry. *)
Theorem artifact_of_memoized_root_is_bare_template
    (p : Program) (options : DataStoreEmitterOptions)
    (path_join : string -> string -> string) (fuel : nat)
    (model : TypeId) (collectionName : JsValue) (st : EmitterState) (ref : string) :
  knownTypes st !! model = Some ref ->
  emitStoreInterface p options path_join (S fuel) model collectionName st
    = Returned tt
        {| typeDecls := [];
           knownTypes := knownTypes st;
           madeDirs := madeDirs st;
           writtenFiles :=
             writtenFiles st ++
             [(path_join (outputDir options) (modelName p model +:+ ".ts"),
               storeTemplate (modelName p model))] |}.
Proof.
  intros H. unfold emitStoreInterface.
  rewrite (getTypeReference_hit p fuel model _ ref) by done. reflexivity.
Qed.

(** X14 on the sample program: [Pet] registered after [Owner]. *)
Lemma memoized_root_witness :
  exists st1 st2,
    emitStoreInterface sampleProgram sampleOptions samplePathJoin 5 4 (JsBool false)
      createTsEmitter = Returned tt st1 /\
    emitStoreInterface sampleProgram sampleOptions samplePathJoin 5 2 (JsBool false) st1
      = Returned tt st2 /\
    writtenFiles st2 = writtenFiles st1 ++ [("out/store/Pet.ts", storeTemplate "Pet")].
Proof.
  eexists _, _. split; [vm_compute; reflexivity |].
  split.
  - eapply (artifact_of_memoized_root_is_bare_template sampleProgram sampleOptions
              samplePathJoin 4 2 (JsBool false) _ "Pet").
    vm_compute; reflexivity.
  - reflexivity.
Defined.

(** ** Registration *)

Lemma stateMapSet_keys (m : list (TypeId * JsValue)) (t : TypeId) (v : JsValue) :
  (stateMapSet m t v).*1 = if decide (t ∈ m.*1) then m.*1 else m.*1 ++ [t].
Proof.
  induction m as [| [k w] m IH]; [done |].
  change (stateMapSet ((k, w) :: m) t v)
    with (if decide (k = t) then (k, v) :: m else (k, w) :: stateMapSet m t v).
  destruct (decide (k = t)) as [-> | Hne]; rewrite !fmap_cons; cbn [fst].
  - rewrite decide_True; [done | apply list_elem_of_here].
  - rewrite IH. destruct (decide (t ∈ m.*1)) as [Hin | Hnin].
    + rewrite decide_True; [done | by apply list_elem_of_further].
    + rewrite decide_False; [done |].
      intros [-> | Hin]%elem_of_cons; done.
Qed.

Lemma stateMapSet_values (m : list (TypeId * JsValue)) (t : TypeId) (v : JsValue) :
  forall k w, (k, w) ∈ stateMapSet m t v -> (k = t /\ w = v) \/ (k, w) ∈ m.
Proof.
  induction m as [| [k0 w0] m IH]; intros k w; simpl.
  - intros [= -> ->]%list_elem_of_singleton. by left.
  - destruct (decide (k0 = t)) as [-> | Hne].
    + intros [[= -> ->] | Hin]%elem_of_cons; [by left |].
      right. by apply list_elem_of_further.
    + intros [[= -> ->] | Hin]%elem_of_cons; [right; apply list_elem_of_here |].
      destruct (IH k w Hin) as [? | ?]; [by left |].
      right. by apply list_elem_of_further.
Qed.

Lemma decorateAll_registers (ts : list TypeId) :
  forall p,
    NoDup (storeStateMap p).*1 ->
    (forall t v, (t, v) ∈ storeStateMap p -> v = JsBool false) ->
    NoDup (storeStateMap (decorateAll p ts)).*1 /\
    (forall t, t ∈ (storeStateMap (decorateAll p ts)).*1 <->
               t ∈ (storeStateMap p).*1 \/ t ∈ ts) /\
    (forall t v, (t, v) ∈ storeStateMap (decorateAll p ts) -> v = JsBool false) /\
    typeAt (decorateAll p ts) = typeAt p /\
    getIntrinsicModelName (decorateAll p ts) = getIntrinsicModelName p.
Proof.
  induction ts as [| t ts IH]; intros p Hnd Hval; simpl.
  - repeat split; try done.
    + by left.
    + intros [? | Hin]; [done | by apply elem_of_nil in Hin].
  - destruct (IH (store_decorator p t)) as (Hnd' & Hkeys & Hval' & Hty & Hin).
    + simpl. rewrite stateMapSet_keys. case_decide; [done |].
      apply NoDup_app. repeat split; [done | | apply NoDup_singleton].
      intros x Hx ->%list_elem_of_singleton. done.
    + simpl. intros k w Hk.
      destruct (stateMapSet_values _ _ _ _ _ Hk) as [[_ ->] | Hold]; [done |].
      by apply (Hval k w).
    + unfold decorateAll in *. simpl in *.
      split; [done |]. split; [| split; [done | split; done]].
      intros x. rewrite Hkeys. simpl. rewrite stateMapSet_keys.
      case_decide as Hdec.
      * rewrite elem_of_cons. split; [intros [? | ?]; auto |].
        intros [? | [-> | ?]]; auto.
      * rewrite elem_of_app, list_elem_of_singleton, elem_of_cons. tauto.
Qed.

(** X15. However many types are decorated with [@store] and however
    often, each decorated type is registered exactly once and no other
    type is; the value recorded is always [false], so that
    [collectionName ?? model.name] is [false] for every registration; the
    type graph is left as it was. *)
Theorem store_registers_each_type_once
    (p : Program) (ts : list TypeId) :
  storeStateMap p = [] ->
  NoDup (storeStateMap (decorateAll p ts)).*1 /\
  (forall t, t ∈ (storeStateMap (decorateAll p ts)).*1 <-> t ∈ ts) /\
  (forall t v dflt, (t, v) ∈ storeStateMap (decorateAll p ts) ->
     v = JsBool false /\ nullish v dflt = JsBool false) /\
  typeAt (decorateAll p ts) = typeAt p.
Proof.
  intros Hempty.
  destruct (decorateAll_registers ts p) as (Hnd & Hkeys & Hval & Hty & _).
  - rewrite Hempty. apply NoDup_nil_2.
  - rewrite Hempty. intros t v Hin. by apply elem_of_nil in Hin.
  - split; [done |]. split; [| split; [| done]].
    + intros t. rewrite Hkeys, Hempty. simpl. split; [intros [Hin | ?]; [| done] | by right].
      by apply elem_of_nil in Hin.
    + intros t v dflt Hin. rewrite (Hval t v Hin). done.
Qed.

(** X15 on the stores of the failing sample: [Owner] decorated twice. *)
Lemma store_registers_witness :
  (storeStateMap failingProgram).*1 = [4; 16; 5] /\
  NoDup (storeStateMap failingProgram).*1.
Proof.
  split; [reflexivity |].
  refine (proj1 (store_registers_each_type_once
                   {| typeAt := sampleTypes;
                      getIntrinsicModelName := sampleIntrinsics;
                      storeStateMap := [];
                      nonModelName := sampleNames |} [4; 16; 4; 5] _)).
  reflexivity.
Defined.

(** ** Failures inside a Model *)

Lemma mapM_stops_at_throw {A B} (f : A -> Emit B) :
  forall (before : list A) (bad : A) (after : list A) st ys st1 msg st2,
    mapM f before st = Returned ys st1 ->
    f bad st1 = Thrown msg st2 ->
    mapM f (before ++ bad :: after) st = Thrown msg st2.
Proof.
  induction before as [| x before IH]; intros bad after st ys st1 msg st2.
  - intros [= _ <-] Hbad. simpl app. rewrite mapM_cons. by rewrite Hbad.
  - rewrite mapM_cons. simpl app. rewrite mapM_cons.
    destruct (f x st) as [y s1 | |]; [| done ..].
    destruct (mapM f before s1) as [ys' s2 | |] eqn:Hbefore; [| done ..].
    intros [= _ <-] Hbad. by rewrite (IH bad after s1 ys' s2 msg st2 Hbefore Hbad).
Qed.

(** X16. A composite Model is declared only when all of it succeeds.
    On its first visit, when a property's type throws after the
    properties before it resolved, the Model's resolution throws the same
    message in the state of that throw: the properties after it are not
    visited and the Model gets no declaration and no memo entry.  When all
    properties resolve and name synthesis throws, the resolution throws in
    the state the properties left. *)
Theorem model_is_declared_only_on_success
    (p : Program) (fuel : nat) (t : TypeId) (m : ModelType) (st : EmitterState) :
  knownTypes st !! t = None ->
  typeAt p t = TModel m ->
  truthyName (getIntrinsicModelName p t) = None ->
  (forall before bad after refs st1 msg st2,
     properties m = before ++ bad :: after ->
     resolvedInOrder p fuel (prop_type <$> before) st refs st1 ->
     getTypeReference p fuel (prop_type bad) st1 = Thrown msg st2 ->
     getTypeReference p (S fuel) t st = Thrown msg st2) /\
  (forall refs st1 msg,
     resolvedInOrder p fuel (prop_type <$> properties m) st refs st1 ->
     getModelDeclarationName p fuel m = Throw msg ->
     getTypeReference p (S fuel) t st = Thrown msg st1).
Proof.
  intros Hmiss Hm Hi.
  assert (Hgo : getTypeReference p (S fuel) t st
                = generateModelType p fuel (getTypeReference p fuel) t m st).
  { rewrite getTypeReference_miss by done. unfold switchOnKind. by rewrite Hm. }
  rewrite Hgo, generateModelType_composite by done.
  split.
  - intros before bad after refs st1 msg st2 Hprops Hbefore Hbad.
    rewrite Hprops.
    rewrite (mapM_stops_at_throw _ before bad after st
               (zip_with propText before refs) st1 msg st2); [done | |].
    + by apply mapM_properties_resolvedInOrder.
    + unfold resolveProperty, bind. by rewrite Hbad.
  - intros refs st1 msg Hprops Hname.
    change (mapM (resolveProperty (getTypeReference p fuel)) (properties m) st)
      with (mapM (fun prop => let! r := getTypeReference p fuel (prop_type prop) in
                              ret (propText prop r)) (properties m) st).
    rewrite (mapM_properties_resolvedInOrder p fuel _ _ _ _ Hprops).
    by rewrite Hname.
Qed.

(** X16 on the second sample program: [Sensor] has a property of the
    unknown intrinsic [uint8] between two [string] properties. *)
Lemma model_failure_witness :
  getTypeReference secondProgram 2 5 createTsEmitter
    = Thrown "Unknown intrinsic type uint8" createTsEmitter.
Proof.
  apply (proj1 (model_is_declared_only_on_success secondProgram 1 5 sensorModel
                  createTsEmitter eq_refl eq_refl eq_refl)
           [mkProp "id" false 4] (mkProp "level" false 6) [mkProp "note" false 4]
           ["string"] createTsEmitter).
  - reflexivity.
  - apply resolved_cons with (st1 := createTsEmitter); [reflexivity |].
    apply resolved_nil.
  - reflexivity.
Defined.

(** ** The memo table over the life of the emitter *)

Lemma truthyName_None (r : option string) :
  truthyName r = None <-> r = None \/ r = Some EmptyString.
Proof.
  destruct r as [[| c s] |]; simpl; split; try done; auto.
  all: by intros [? | ?].
Qed.

Section Reached.

Variable p : Program.

Lemma getTypeReference_declaredWith past fuel t st :
  ends (fun s s' => declaredWith past s -> declaredWith past s')
       st (getTypeReference p fuel t st).
Proof.
  apply getTypeReference_rel.
  - auto.
  - auto.
  - intros fuel0 t0 m st0 st1 props typeRef _ _ _ Hstep _ _ Hstart k ref; simpl.
    rewrite lookup_insert. case_decide as Hk.
    + intros [= <-]. exists props.
      rewrite app_assoc. apply elem_of_app. right. by apply list_elem_of_singleton.
    + intros Hl. destruct (Hstep Hstart k ref Hl) as [ps Hps]. exists ps.
      rewrite app_assoc. apply elem_of_app. by left.
Qed.

(** In every state the emitter goes through, the keys of the memo table
    are composite Models under their declaration names, and each has its
    declaration in the list of the current pass or of an earlier one. *)
Lemma reached_invariant past st :
  reached p past st -> memo_ok p st /\ declaredWith past st.
Proof.
  induction 1 as [| past st dir _ [IHok IHdecl] | past st _ [IHok IHdecl]
                  | past st fuel t st' _ [IHok IHdecl] Hfin
                  | past st file _ [IHok IHdecl]].
  - split; intros k ref; simpl; by rewrite lookup_empty.
  - split; [exact IHok | exact IHdecl].
  - split; [exact IHok |]. intros k ref Hl. simpl in *.
    rewrite app_nil_r. exact (IHdecl k ref Hl).
  - pose proof (getTypeReference_step p fuel t st) as Hstep.
    pose proof (getTypeReference_declaredWith past fuel t st) as Hdecl.
    unfold ends in *. rewrite Hfin in Hstep, Hdecl.
    destruct Hstep as (Hok & _ & _). split; auto.
  - split; [exact IHok | exact IHdecl].
Qed.

(** The builder only goes through such states. *)
Lemma emitStoreInterface_reached options path_join fuel model collectionName past st st' :
  reached p past st ->
  finalState (emitStoreInterface p options path_join fuel model collectionName st)
    = Some st' ->
  reached p (past ++ typeDecls st) st'.
Proof.
  intros Hr. unfold emitStoreInterface. fold (startPass st).
  destruct (getTypeReference p fuel model (startPass st)) as [ref st2 | msg st2 |] eqn:Hrun;
    simpl; [| | done].
  - intros [= <-]. apply reached_written.
    apply (reached_resolved p _ (startPass st) fuel model); [by apply reached_pass |].
    by rewrite Hrun.
  - intros [= <-].
    apply (reached_resolved p _ (startPass st) fuel model); [by apply reached_pass |].
    by rewrite Hrun.
Qed.

Lemma emitLoop_reached options path_join fuel entries :
  forall past st st',
    reached p past st ->
    finalState (emitLoop p options path_join fuel entries st) = Some st' ->
    exists past', reached p past' st'.
Proof.
  induction entries as [| [model c] entries IH]; intros past st st' Hr; simpl.
  - intros [= <-]. by exists past.
  - unfold bind.
    pose proof (emitStoreInterface_reached options path_join fuel model
                  (nullish c (JsString (modelName p model))) past st) as Hone.
    destruct (emitStoreInterface p options path_join fuel model _ st)
      as [u st1 | msg st1 |]; simpl in *; [| | done].
    + apply (IH (past ++ typeDecls st) st1). by apply Hone.
    + intros [= <-]. exists (past ++ typeDecls st). by apply Hone.
Qed.

Lemma emit_reached options path_join fuel past st st' :
  reached p past st ->
  finalState (emit p options path_join fuel st) = Some st' ->
  exists past', reached p past' st'.
Proof.
  intros Hr. unfold emit. apply (emitLoop_reached _ _ _ _ past).
  by apply reached_mkdir.
Qed.

End Reached.

(** C10, as the code has it. In every state an emitter goes through,
    from its creation on and across passes, each key of the memo table is
    a Model with no intrinsic name or the empty one, stored under its
    declaration name, whose declaration was appended in the current pass
    or in an earlier one.  Models with a non-empty intrinsic name, Arrays,
    Unions and Number literals have no entry, and each occurrence of one
    goes through the dispatch on kind again. *)
Theorem memo_only_ever_holds_declared_composite_models
    (p : Program) (past : list string) (st : EmitterState) :
  reached p past st ->
  (forall k ref, knownTypes st !! k = Some ref ->
     exists m props,
       typeAt p k = TModel m /\
       (getIntrinsicModelName p k = None \/
        getIntrinsicModelName p k = Some EmptyString) /\
       (exists fuel, getModelDeclarationName p fuel m = Ok ref) /\
       interfaceDecl ref props ∈ past ++ typeDecls st) /\
  (forall k,
     (exists m n, typeAt p k = TModel m /\
                  getIntrinsicModelName p k = Some n /\ n <> EmptyString) \/
     (exists a, typeAt p k = TArray a) \/
     (exists opts, typeAt p k = TUnion opts) \/
     (exists v, typeAt p k = TNumber v) ->
     knownTypes st !! k = None /\
     forall fuel,
       getTypeReference p (S fuel) k st
         = switchOnKind p fuel (getTypeReference p fuel) k st).
Proof.
  intros Hr. destruct (reached_invariant p past st Hr) as [Hok Hdecl]. split.
  - intros k ref Hl.
    destruct (Hok k ref Hl) as (m & Hm & Hi & Hname).
    destruct (Hdecl k ref Hl) as (props & Hin).
    exists m, props. repeat split; try done. by apply truthyName_None.
  - intros k Hk.
    assert (Hmiss : knownTypes st !! k = None).
    { apply (memo_miss p); [done |]. intros (m & Hm & Hc).
      apply truthyName_None in Hc.
      destruct Hk as [(m' & n & _ & Hn & Hne) | [(a & Ha) | [(o & Ho) | (v & Hv)]]];
        [| congruence ..].
      destruct Hc as [Hc | Hc]; congruence. }
    split; [exact Hmiss |].
    intros fuel. by apply getTypeReference_miss.
Qed.

(** C10 on the sample program: when [emit] has run both passes, [Pet],
    declared in the first pass, is in the memo table and neither
    [string] nor [string[]] is. *)
Lemma memo_invariant_witness :
  exists st',
    finalState (emit sampleProgram sampleOptions samplePathJoin 5 createTsEmitter)
      = Some st' /\
    knownTypes st' !! 2 = Some "Pet" /\
    knownTypes st' !! 0 = None /\
    knownTypes st' !! 3 = None.
Proof.
  eexists. split; [vm_compute; reflexivity |].
  split; [vm_compute; reflexivity |].
  match goal with |- knownTypes ?s !! _ = _ /\ _ =>
    destruct (emit_reached sampleProgram sampleOptions samplePathJoin 5 [] createTsEmitter s
                (reached_created sampleProgram) ltac:(vm_compute; reflexivity))
      as [past Hr];
    destruct (memo_only_ever_holds_declared_composite_models sampleProgram past s Hr)
      as [_ Hnone]
  end.
  split.
  - apply Hnone. left. eexists _, "string".
    split; [reflexivity |]. split; [reflexivity | discriminate].
  - apply Hnone. right. left. eexists. reflexivity.
Defined.

(** C10 as stated fails at the empty intrinsic name: [Blank] is
    intrinsic-named, with the name [""], and resolving it gives it a memo
    entry. *)
Lemma empty_intrinsic_name_is_memoized :
  typeAt blankProgram 0 = mkModel "Blank" [] None /\
  getIntrinsicModelName blankProgram 0 = Some EmptyString /\
  exists st',
    getTypeReference blankProgram 2 0 createTsEmitter = Returned "Blank" st' /\
    knownTypes st' !! 0 = Some "Blank".
Proof.
  split; [reflexivity |]. split; [reflexivity |].
  eexists. split; [vm_compute; reflexivity | reflexivity].
Qed.
